(** * Platforms demo: physics and collision core of [src/main.c]

    A shallow embedding of the simulation core of the raylib platformer
    ([get_aabb_mtv], [spawn_obstacle], [update_obstacles], [update_player],
    [update_player_collisions], [load_game], [update]) together with the
    properties its specification states about it.

    Numbers.  The C program computes in [float]; here every [float] is an
    exact rational in lowest terms ([Qc]): additions, products and
    comparisons are the mathematical ones, no rounding, no NaN, no
    infinities.  The square root of libm is not a rational function: it is a
    parameter [sqrtf] of the development, and the theorems hold for whatever
    function is supplied.  Concrete runs instantiate it with [Qcsqrt], exact
    on squares of rationals. *)

From Stdlib Require Import ZArith QArith Qcanon Qabs Qcabs Qround Lqa Lia Bool List.
From stdpp Require Import base list.

Local Open Scope Qc_scope.

(** ** Numbers *)

(** A float literal. *)
Definition fl (q : Q) : Qc := Q2Qc q.

Arguments fl q%_Q.

(** [a < b] on floats, as the C comparison yielding a boolean. *)
Definition Qcltb (a b : Qc) : bool := negb (Qle_bool b a).

Infix "<?" := Qcltb (at level 70, no associativity) : Qc_scope.

(** [fabs] / [fabsf]. *)
Definition fabsf (a : Qc) : Qc := Qcabs a.

(** [fminf] and [fmaxf] of libm. *)
Definition fminf (a b : Qc) : Qc := if a <? b then a else b.
Definition fmaxf (a b : Qc) : Qc := if a <? b then b else a.

(** A square root on rationals for concrete runs: the floor of the root at
    a resolution of 2^-24, exact whenever the argument is the square of a
    rational. *)
Definition Qcsqrt (q : Qc) : Qc :=
  let n := Qnum q in
  let d := Zpos (Qden q) in
  Q2Qc (Qmake (Z.sqrt (n * d * 2 ^ 48)) (Z.to_pos (d * 2 ^ 24))).

(** ** raylib's value types *)

Record Vector2 : Type := mkVector2 { vx : Qc; vy : Qc }.

Record Rectangle : Type :=
  mkRectangle { rx : Qc; ry : Qc; width : Qc; height : Qc }.

Record Camera2D : Type :=
  mkCamera2D { offset : Vector2; target : Vector2; rotation : Qc; zoom : Qc }.

(** ** raymath (header-only library of raylib), as used by [main.c] *)

Definition Vector2Zero : Vector2 := mkVector2 0 0.

Definition Vector2Add (v1 v2 : Vector2) : Vector2 :=
  mkVector2 (vx v1 + vx v2) (vy v1 + vy v2).

Definition Vector2Subtract (v1 v2 : Vector2) : Vector2 :=
  mkVector2 (vx v1 - vx v2) (vy v1 - vy v2).

Definition Vector2Scale (v : Vector2) (scale : Qc) : Vector2 :=
  mkVector2 (vx v * scale) (vy v * scale).

Definition Vector2Negate (v : Vector2) : Vector2 :=
  mkVector2 (- vx v) (- vy v).

Definition Vector2DotProduct (v1 v2 : Vector2) : Qc :=
  vx v1 * vx v2 + vy v1 * vy v2.

(** Modelled from the spec: raylib's [CheckCollisionRecs] is not part of
    the repository; section 4.1 describes it as the overlap of the extents
    on both axes, touching edges not overlapping. *)
Definition CheckCollisionRecs (rec1 rec2 : Rectangle) : bool :=
  (rx rec1 <? rx rec2 + width rec2) && (rx rec2 <? rx rec1 + width rec1) &&
  ((ry rec1 <? ry rec2 + height rec2) && (ry rec2 <? ry rec1 + height rec1)).

Section WithSqrt.

(** libm's [sqrtf]. *)
Variable sqrtf : Qc -> Qc.

Definition Vector2Length (v : Vector2) : Qc :=
  sqrtf (vx v * vx v + vy v * vy v).

Definition Vector2Distance (v1 v2 : Vector2) : Qc :=
  sqrtf ((vx v1 - vx v2) * (vx v1 - vx v2) + (vy v1 - vy v2) * (vy v1 - vy v2)).

(** Modelled from the spec: [normalize] "returns the zero vector when [v]
    is the zero vector (never divides by zero)"; this is raymath's
    [Vector2Normalize], which scales by [1/length] only when [length > 0]. *)
Definition Vector2Normalize (v : Vector2) : Vector2 :=
  let length := sqrtf (vx v * vx v + vy v * vy v) in
  if 0 <? length
  then let ilength := 1 / length in mkVector2 (vx v * ilength) (vy v * ilength)
  else mkVector2 0 0.

End WithSqrt.

(** ** Constants of [main.c] *)

Definition GRAVITY_ACCELERATION : Qc := fl 50.
Definition MAX_N_OBSTACLES : Z := 64.
Definition PLAYER_MAX_HEALTH : Qc := fl 100.
Definition MAX_SPEED_WITHOUT_DAMAGE : Qc := fl 30.
Definition INT32_MAX : Z := 2147483647.

(** ** [get_aabb_mtv] *)

Definition set_vx (v : Vector2) (a : Qc) : Vector2 := mkVector2 a (vy v).
Definition set_vy (v : Vector2) (a : Qc) : Vector2 := mkVector2 (vx v) a.

(** The two candidate depths per axis and the one [get_aabb_mtv] picks. *)
Definition x_west (r1 r2 : Rectangle) : Qc := rx r2 - rx r1 - width r1.
Definition x_east (r1 r2 : Rectangle) : Qc := rx r2 + width r2 - rx r1.
Definition y_south (r1 r2 : Rectangle) : Qc := ry r2 + height r2 - ry r1.
Definition y_north (r1 r2 : Rectangle) : Qc := ry r2 - ry r1 - height r1.

Definition get_aabb_mtv (r1 r2 : Rectangle) : Vector2 :=
  let mtv := Vector2Zero in
  if negb (CheckCollisionRecs r1 r2) then mtv else
  let mtv :=
    if fabsf (x_west r1 r2) <? fabsf (x_east r1 r2)
    then set_vx mtv (x_west r1 r2) else set_vx mtv (x_east r1 r2) in
  let mtv :=
    if fabsf (y_south r1 r2) <? fabsf (y_north r1 r2)
    then set_vy mtv (y_south r1 r2) else set_vy mtv (y_north r1 r2) in
  if fabsf (vy mtv) <? fabsf (vx mtv) then set_vx mtv 0 else set_vy mtv 0.

(** ** Global state *)

Record Player : Type := mkPlayer {
  position : Vector2;
  velocity : Vector2;
  size : Vector2;
  speed : Qc;
  jump_impulse : Qc;
  health : Qc;
  max_health : Qc;
  is_grounded : bool
}.

Record Obstacle : Type := mkObstacle {
  rect : Rectangle;
  start : Vector2;
  end_ : Vector2;
  o_speed : Qc;
  is_moving_to_start : bool;
  is_player_attached : bool
}.

(** A zero-initialised [Obstacle], as every slot of the static array is
    before the first load. *)
Definition Obstacle_zero : Obstacle :=
  mkObstacle (mkRectangle 0 0 0 0) Vector2Zero Vector2Zero 0 false false.

#[global] Instance Obstacle_inhabited : Inhabited Obstacle :=
  populate Obstacle_zero.

(** The globals [PLAYER], [CAMERA], [N_OBSTACLES] and [OBSTACLES].  The
    array has [MAX_N_OBSTACLES] slots; the program only ever indexes it
    below [N_OBSTACLES <= MAX_N_OBSTACLES] (lemma [reachable_bounds]), so
    the behaviour of the list operations outside the array is never
    exercised. *)
Record Game : Type := mkGame {
  PLAYER : Player;
  CAMERA : Camera2D;
  N_OBSTACLES : Z;
  OBSTACLES : list Obstacle
}.

Definition Player_zero : Player :=
  mkPlayer Vector2Zero Vector2Zero Vector2Zero 0 0 0 0 false.

Definition SCREEN_WIDTH : Qc := fl 1024.
Definition SCREEN_HEIGHT : Qc := fl 1024.

(** The static initialisers of the globals. *)
Definition Game_init : Game :=
  mkGame Player_zero
         (mkCamera2D (mkVector2 (fl (1 # 2) * SCREEN_WIDTH) (fl (1 # 2) * SCREEN_HEIGHT))
                     (mkVector2 0 0) 0 (fl 20))
         0
         (replicate (Z.to_nat MAX_N_OBSTACLES) Obstacle_zero).

(** Field updates. *)
Definition set_position (p : Player) (v : Vector2) : Player :=
  mkPlayer v (velocity p) (size p) (speed p) (jump_impulse p) (health p)
           (max_health p) (is_grounded p).
Definition set_velocity (p : Player) (v : Vector2) : Player :=
  mkPlayer (position p) v (size p) (speed p) (jump_impulse p) (health p)
           (max_health p) (is_grounded p).
Definition set_size (p : Player) (v : Vector2) : Player :=
  mkPlayer (position p) (velocity p) v (speed p) (jump_impulse p) (health p)
           (max_health p) (is_grounded p).
Definition set_speed (p : Player) (a : Qc) : Player :=
  mkPlayer (position p) (velocity p) (size p) a (jump_impulse p) (health p)
           (max_health p) (is_grounded p).
Definition set_jump_impulse (p : Player) (a : Qc) : Player :=
  mkPlayer (position p) (velocity p) (size p) (speed p) a (health p)
           (max_health p) (is_grounded p).
Definition set_health (p : Player) (a : Qc) : Player :=
  mkPlayer (position p) (velocity p) (size p) (speed p) (jump_impulse p) a
           (max_health p) (is_grounded p).
Definition set_max_health (p : Player) (a : Qc) : Player :=
  mkPlayer (position p) (velocity p) (size p) (speed p) (jump_impulse p)
           (health p) a (is_grounded p).
Definition set_is_grounded (p : Player) (b : bool) : Player :=
  mkPlayer (position p) (velocity p) (size p) (speed p) (jump_impulse p)
           (health p) (max_health p) b.

Definition set_rect (o : Obstacle) (r : Rectangle) : Obstacle :=
  mkObstacle r (start o) (end_ o) (o_speed o) (is_moving_to_start o)
             (is_player_attached o).
Definition set_is_moving_to_start (o : Obstacle) (b : bool) : Obstacle :=
  mkObstacle (rect o) (start o) (end_ o) (o_speed o) b (is_player_attached o).
Definition set_is_player_attached (o : Obstacle) (b : bool) : Obstacle :=
  mkObstacle (rect o) (start o) (end_ o) (o_speed o) (is_moving_to_start o) b.

Definition set_rx (r : Rectangle) (a : Qc) : Rectangle :=
  mkRectangle a (ry r) (width r) (height r).
Definition set_ry (r : Rectangle) (a : Qc) : Rectangle :=
  mkRectangle (rx r) a (width r) (height r).

Definition set_PLAYER (g : Game) (p : Player) : Game :=
  mkGame p (CAMERA g) (N_OBSTACLES g) (OBSTACLES g).
Definition set_CAMERA (g : Game) (c : Camera2D) : Game :=
  mkGame (PLAYER g) c (N_OBSTACLES g) (OBSTACLES g).
Definition set_N_OBSTACLES (g : Game) (n : Z) : Game :=
  mkGame (PLAYER g) (CAMERA g) n (OBSTACLES g).
Definition set_OBSTACLES (g : Game) (l : list Obstacle) : Game :=
  mkGame (PLAYER g) (CAMERA g) (N_OBSTACLES g) l.

(** [OBSTACLES[i]] read and written through a C [int] index. *)
Definition obstacle_at (g : Game) (i : Z) : Obstacle :=
  OBSTACLES g !!! Z.to_nat i.

Definition set_obstacle_at (g : Game) (i : Z) (o : Obstacle) : Game :=
  set_OBSTACLES g (<[Z.to_nat i := o]> (OBSTACLES g)).

(** [for (int i = 0; i < n; ++i) body], threading the state. *)
Definition for_loop {S : Type} (n : Z) (body : Z -> S -> S) (s : S) : S :=
  fold_left (fun s i => body (Z.of_nat i) s) (seq 0 (Z.to_nat n)) s.

(** ** Inputs of one frame *)

(** What the raylib calls of one [update] return: [GetFrameTime],
    [IsKeyDown] for A and D, [IsKeyPressed] for W and R, and the results of
    the successive [GetRandomValue(0, INT32_MAX)] calls of a [load_game]. *)
Record Frame : Type := mkFrame {
  dt : Qc;
  key_A : bool;
  key_D : bool;
  key_W : bool;
  key_R : bool;
  rand : nat -> Z
}.

(** ** utils *)

(** [randf], given the value [GetRandomValue(0, INT32_MAX)] returned. *)
Definition randf (r : Z) : Qc := fl (inject_Z r) / fl (inject_Z INT32_MAX).

Definition randf_min_max (r : Z) (min max : Qc) : Qc :=
  let p := randf r in
  min + p * (max - min).

(** ** obstacle *)

Definition spawn_obstacle (rect : Rectangle) (start end_ : Vector2) (speed : Qc)
    (g : Game) : Z * Game :=
  if (N_OBSTACLES g =? MAX_N_OBSTACLES)%Z then ((-1)%Z, g) else
  let idx := N_OBSTACLES g in
  let g := set_N_OBSTACLES g (idx + 1)%Z in
  let obstacle := obstacle_at g idx in
  let obstacle :=
    mkObstacle rect start end_ speed
               (is_moving_to_start obstacle) (is_player_attached obstacle) in
  (idx, set_obstacle_at g idx obstacle).

Definition spawn_static_obstacle (rect : Rectangle) (g : Game) : Z * Game :=
  let start := mkVector2 (rx rect) (ry rect) in
  let end_ := start in
  let speed := 0 in
  spawn_obstacle rect start end_ speed g.

Section Simulation.

Variable sqrtf : Qc -> Qc.

(** *** [update_obstacles] *)

(** The direction a platform travels in: the unit vector from [start] to
    [end], negated while it moves back to [start]. *)
Definition platform_direction (obstacle : Obstacle) : Vector2 :=
  let direction := Vector2Subtract (end_ obstacle) (start obstacle) in
  let direction := Vector2Normalize sqrtf direction in
  if is_moving_to_start obstacle then Vector2Negate direction else direction.

Definition platform_step (dt : Qc) (obstacle : Obstacle) : Vector2 :=
  Vector2Scale (platform_direction obstacle) (dt * o_speed obstacle).

(** One platform's own part of the loop body: move, then clamp to the
    target and turn around once the target is no longer ahead. *)
Definition move_platform (dt : Qc) (obstacle : Obstacle) : Obstacle :=
  let direction := platform_direction obstacle in
  let position_step := platform_step dt obstacle in
  let obstacle :=
    set_rect obstacle
      (set_ry (set_rx (rect obstacle) (rx (rect obstacle) + vx position_step))
              (ry (rect obstacle) + vy position_step)) in
  let position := mkVector2 (rx (rect obstacle)) (ry (rect obstacle)) in
  let target :=
    if is_moving_to_start obstacle then start obstacle else end_ obstacle in
  let to_target_direction := Vector2Subtract target position in
  let is_to_target := 0 <? Vector2DotProduct direction to_target_direction in
  if negb is_to_target then
    let clamped_position :=
      if is_moving_to_start obstacle then start obstacle else end_ obstacle in
    let obstacle :=
      set_rect obstacle
        (set_ry (set_rx (rect obstacle) (vx clamped_position))
                (vy clamped_position)) in
    set_is_moving_to_start obstacle (xorb (is_moving_to_start obstacle) true)
  else obstacle.

Definition update_obstacles_body (dt : Qc) (i : Z) (g : Game) : Game :=
  let obstacle := obstacle_at g i in
  (* don't update non-platform obstacles (zero speed) *)
  if negb (0 <? o_speed obstacle) then g else
  let position_step := platform_step dt obstacle in
  let g :=
    if is_player_attached obstacle
    then set_PLAYER g (set_position (PLAYER g)
                         (Vector2Add (position (PLAYER g)) position_step))
    else g in
  set_obstacle_at g i (move_platform dt obstacle).

Definition update_obstacles (f : Frame) (g : Game) : Game :=
  for_loop (N_OBSTACLES g) (update_obstacles_body (dt f)) g.

(** *** player *)

Definition get_player_rect (g : Game) : Rectangle :=
  let p := PLAYER g in
  mkRectangle (vx (position p) + fl (1 # 2) * vx (size p))
              (vy (position p) + vy (size p))
              (vx (size p))
              (vy (size p)).

Definition update_player (f : Frame) (g : Game) : Game :=
  let p := PLAYER g in
  (* gravity *)
  let p := set_velocity p (set_vy (velocity p)
                             (vy (velocity p) + GRAVITY_ACCELERATION * dt f)) in
  (* moving (immediate position change) *)
  let direction := Vector2Zero in
  let direction :=
    if key_A f then set_vx direction (vx direction - 1) else direction in
  let direction :=
    if key_D f then set_vx direction (vx direction + 1) else direction in
  let direction := Vector2Normalize sqrtf direction in
  let position_step := Vector2Scale direction (speed p * dt f) in
  (* jumping (velocity change) *)
  let p :=
    if key_W f && is_grounded p
    then set_velocity p (set_vy (velocity p) (vy (velocity p) - jump_impulse p))
    else p in
  (* velocity *)
  let position_step :=
    Vector2Add position_step (Vector2Scale (velocity p) (dt f)) in
  (* apply position step *)
  set_PLAYER g (set_position p (Vector2Add (position p) position_step)).

(** The four running extrema of [update_player_collisions]. *)
Record Extrema : Type := mkExtrema {
  mtv_min_x : Qc;
  mtv_max_x : Qc;
  mtv_min_y : Qc;
  mtv_max_y : Qc
}.

Definition collisions_body (i : Z) (s : Extrema * Game) : Extrema * Game :=
  let '(e, g) := s in
  let obstacle := obstacle_at g i in
  let obstacle_rect := rect obstacle in
  let player_rect := get_player_rect g in
  let mtv := get_aabb_mtv player_rect obstacle_rect in
  let e := mkExtrema (fminf (mtv_min_x e) (vx mtv)) (fmaxf (mtv_max_x e) (vx mtv))
                     (fminf (mtv_min_y e) (vy mtv)) (fmaxf (mtv_max_y e) (vy mtv)) in
  (* attach player to the platform if needed *)
  let obstacle :=
    set_is_player_attached obstacle ((vy mtv <? 0) && (0 <? o_speed obstacle)) in
  (e, set_obstacle_at g i obstacle).

Definition collisions_loop (g : Game) : Extrema * Game :=
  for_loop (N_OBSTACLES g) collisions_body (mkExtrema 0 0 0 0, g).

(** The combined correction made of the four extrema. *)
Definition combine_extrema (e : Extrema) : Vector2 :=
  let mtv := mkVector2 (mtv_min_x e) (mtv_min_y e) in
  let mtv :=
    if fabsf (mtv_min_x e) <? fabsf (mtv_max_x e)
    then set_vx mtv (mtv_max_x e) else mtv in
  if fabsf (mtv_min_y e) <? fabsf (mtv_max_y e)
  then set_vy mtv (mtv_max_y e) else mtv.

Definition collision_mtv (g : Game) : Vector2 :=
  combine_extrema (fst (collisions_loop g)).

Definition update_player_collisions (g : Game) : Game :=
  let '(e, g) := collisions_loop g in
  let mtv := combine_extrema e in
  let p := PLAYER g in
  let p := set_position p (Vector2Add (position p) mtv) in
  let is_just_grounded := (vy mtv <? 0) && (0 <? vy (velocity p)) in
  let p :=
    if is_just_grounded then
      let speed := Vector2Length sqrtf (velocity p) in
      let damage := speed - MAX_SPEED_WITHOUT_DAMAGE in
      let damage := if damage <? 0 then 0 else damage in
      let p := set_health p (health p - damage) in
      let p := set_velocity p Vector2Zero in
      set_is_grounded p true
    else if (0 <? vy mtv) && (vy (velocity p) <? 0) then
      set_velocity p (set_vy (velocity p) 0)
    else
      set_is_grounded p false in
  set_PLAYER g p.

(** *** game *)

Definition load_game_platform (rand : nat -> Z) (i : Z) (g : Game) : Game :=
  let x_min := fl (-15) in
  let x_max := fl 5 in
  let y := fl 8 - fl (inject_Z i) * fl 8 in
  let x := randf_min_max (rand (2 * Z.to_nat i)%nat) x_min x_max in
  let speed := randf_min_max (rand (2 * Z.to_nat i + 1)%nat) (fl 5) (fl 9) in
  snd (spawn_obstacle (mkRectangle x y (fl 10) (fl (5 # 2)))
                      (mkVector2 x_min y) (mkVector2 x_max y) speed g).

Definition load_game (rand : nat -> Z) (g : Game) : Game :=
  (* player *)
  let p := PLAYER g in
  let p := set_position p Vector2Zero in
  let p := set_velocity p Vector2Zero in
  let p := set_size p (mkVector2 (fl 1) (fl 2)) in
  let p := set_speed p (fl 15) in
  let p := set_jump_impulse p (fl 30) in
  let p := set_max_health p PLAYER_MAX_HEALTH in
  let p := set_health p (max_health p) in
  let g := set_PLAYER g p in
  let g := set_N_OBSTACLES g 0 in
  (* ground *)
  let g := snd (spawn_static_obstacle (mkRectangle (fl (-20)) (fl 20) (fl 40) (fl (5 # 2))) g) in
  (* left wall *)
  let g := snd (spawn_static_obstacle (mkRectangle (fl (-20)) (fl (-100)) (fl (5 # 2)) (fl 120)) g) in
  (* left stair *)
  let g := snd (spawn_static_obstacle (mkRectangle (fl (-35 # 2)) (fl 15) (fl (5 # 2)) (fl 5)) g) in
  (* right wall *)
  let g := snd (spawn_static_obstacle (mkRectangle (fl (35 # 2)) (fl (-100)) (fl (5 # 2)) (fl 120)) g) in
  (* platforms *)
  for_loop 10 (load_game_platform rand) g.

Definition update_reset (f : Frame) (g : Game) : Game :=
  if key_R f then load_game (rand f) g else g.

Definition update_camera (g : Game) : Game :=
  let target_ := position (PLAYER g) in
  let distance := Vector2Distance sqrtf target_ (target (CAMERA g)) in
  let direction :=
    Vector2Normalize sqrtf (Vector2Subtract target_ (target (CAMERA g))) in
  let position_step := Vector2Scale direction (fl (1 # 10) * distance) in
  set_CAMERA g
    (mkCamera2D (offset (CAMERA g))
                (Vector2Add (target (CAMERA g)) position_step)
                (rotation (CAMERA g)) (zoom (CAMERA g))).

Definition update (f : Frame) (g : Game) : Game :=
  let g := update_reset f g in
  let g := update_player f g in
  let g := update_obstacles f g in
  let g := update_player_collisions g in
  update_camera g.

(** *** Runs *)

(** The random draws raylib hands to one [load_game] lie in the range asked
    for, and a frame time is an elapsed time. *)
Definition rand_ok (rand : nat -> Z) : Prop :=
  forall k : nat, (0 <= rand k <= INT32_MAX)%Z.

Definition Frame_ok (f : Frame) : Prop := 0 <= dt f /\ rand_ok (rand f).

(** [main]: [load] runs [load_game] on the static initialisers, then the
    loop runs [update] once per frame. *)
Definition run (rand0 : nat -> Z) (frames : list Frame) : Game :=
  fold_left (fun g f => update f g) frames (load_game rand0 Game_init).

Inductive reachable : Game -> Prop :=
| reachable_load (rand0 : nat -> Z) :
    rand_ok rand0 -> reachable (load_game rand0 Game_init)
| reachable_update (f : Frame) (g : Game) :
    reachable g -> Frame_ok f -> reachable (update f g).

End Simulation.


(** * Vocabulary of the specification *)

(** ** Rectangles *)








(** ** Platforms *)

Definition obstacle_position (o : Obstacle) : Vector2 :=
  mkVector2 (rx (rect o)) (ry (rect o)).

(** [p] lies on the closed segment from [s] to [e]. *)
Definition on_segment (s e p : Vector2) : Prop :=
  exists t : Qc,
    0 <= t /\ t <= 1 /\
    vx p = vx s + t * (vx e - vx s) /\ vy p = vy s + t * (vy e - vy s).

Definition on_patrol (o : Obstacle) : Prop :=
  on_segment (start o) (end_ o) (obstacle_position o).



(** The state of the obstacles after the frames' [update_obstacles]. *)
Definition obstacle_ticks (sqrtf : Qc -> Qc) (frames : list Frame) (g : Game) : Game :=
  fold_left (fun g f => update_obstacles sqrtf f g) frames g.

(** ** The array and its bounds *)

Definition Game_wf (g : Game) : Prop :=
  (0 <= N_OBSTACLES g <= MAX_N_OBSTACLES)%Z /\
  length (OBSTACLES g) = Z.to_nat MAX_N_OBSTACLES.

(** What [spawn_obstacle] is given to write. *)
Definition spawned_as (o : Obstacle) (r : Rectangle) (s e : Vector2) (sp : Qc) : Prop :=
  rect o = r /\ start o = s /\ end_ o = e /\ o_speed o = sp.

(** The spawn configuration of a slot: what [spawn_obstacle] writes, the
    two flags left out. *)
Definition spawn_config (o : Obstacle) : Rectangle * Vector2 * Vector2 * Qc :=
  (rect o, start o, end_ o, o_speed o).

(** ** Free fall *)

Definition no_input (dt : Qc) : Frame :=
  mkFrame dt false false false false (fun _ => 0%Z).





(** ** Concrete inputs *)

(** Draws that put every platform at [x_max] with the least speed, and
    draws that put every platform at [x_min] with the greatest speed. *)
Definition rand_right (k : nat) : Z := if Nat.even k then INT32_MAX else 0%Z.
Definition rand_left (k : nat) : Z := if Nat.even k then 0%Z else INT32_MAX.

(** A frame given by its time in sixteenths of a second, the direction key
    held (1 for A, 2 for D) and whether W was pressed. *)
Definition frame_of (c : Z * Z * bool) : Frame :=
  let '(n, k, w) := c in
  mkFrame (fl (n # 16)) (k =? 1)%Z (k =? 2)%Z w false rand_left.

(** Frames that take the player up the ten platforms, off the top one and
    down to the ground, then over the stair up to the sixth platform and
    down again. *)
Definition two_falls : list (Z * Z * bool) :=
  [
   (5, 2, false); (1, 2, true); (1, 2, false); (4, 0, false); (4, 0, false); (1, 2, true);
   (1, 0, false); (4, 0, false); (4, 0, false); (1, 1, true); (1, 1, false); (4, 0, false);
   (4, 0, false); (1, 1, true); (1, 1, false); (4, 0, false); (4, 0, false); (1, 1, true);
   (1, 0, false); (4, 0, false); (4, 0, false); (1, 1, true); (1, 1, false); (4, 0, false);
   (4, 0, false); (1, 1, true); (1, 1, false); (4, 0, false); (4, 0, false); (1, 0, true);
   (1, 0, false); (4, 0, false); (4, 0, false); (1, 2, true); (1, 2, false); (4, 0, false);
   (4, 0, false); (2, 1, false); (2, 1, false); (2, 1, false); (1, 0, false); (1, 0, false);
   (1, 0, false); (1, 0, false); (1, 0, false); (1, 0, false); (1, 0, false); (1, 0, false);
   (1, 0, false); (1, 0, false); (1, 0, false); (1, 0, false); (1, 0, false); (1, 0, false);
   (1, 0, false); (1, 0, false); (1, 0, false); (1, 0, false); (1, 0, false); (1, 0, false);
   (1, 0, false); (1, 0, false); (1, 0, false); (1, 0, false); (3, 0, false); (3, 1, false);
   (3, 1, false); (1, 0, true); (1, 0, false); (1, 0, false); (1, 0, false); (4, 1, false);
   (4, 0, false); (2, 0, false); (2, 0, false); (2, 0, false); (2, 0, false); (2, 0, false);
   (2, 0, false); (2, 0, false); (2, 0, false); (2, 0, false); (2, 0, false); (2, 0, false);
   (2, 0, false); (2, 0, false); (2, 0, false); (2, 0, false); (2, 0, false); (2, 0, false);
   (2, 0, false); (2, 0, false); (2, 0, false); (2, 0, false); (1, 0, true); (1, 0, false);
   (4, 2, false); (4, 0, false); (1, 2, true); (1, 2, false); (4, 2, false); (4, 0, false);
   (1, 0, true); (1, 2, false); (4, 0, false); (4, 0, false); (1, 2, true); (1, 0, false);
   (4, 0, false); (4, 0, false); (1, 2, true); (1, 2, false); (4, 0, false); (4, 0, false);
   (1, 2, true); (1, 2, false); (4, 0, false); (4, 0, false); (2, 1, false); (2, 1, false);
   (2, 1, false); (1, 0, false); (1, 0, false); (1, 0, false); (1, 0, false); (1, 0, false);
   (1, 0, false); (1, 0, false); (1, 0, false); (1, 0, false); (1, 0, false); (1, 0, false);
   (1, 0, false); (1, 0, false); (1, 0, false); (1, 0, false); (1, 0, false); (1, 0, false);
   (1, 0, false); (1, 0, false); (1, 0, false); (1, 0, false)
  ]%Z.

(** The player after the first [n] of these frames. *)
Definition after_frames (n : nat) : Player :=
  PLAYER (run Qcsqrt rand_right (map frame_of (firstn n two_falls))).

(** A player falling at 40 units per second, overlapping the ground by one
    unit from above. *)
Definition landing_at_40 : Game :=
  let g := load_game rand_right Game_init in
  set_PLAYER g (set_velocity (set_position (PLAYER g) (mkVector2 0 (fl 17)))
                             (mkVector2 0 (fl 40))).

(** The state after one frame in which the player, walking right, lands
    on the lowest platform. *)
Definition landed_on_platform : Game :=
  run Qcsqrt rand_right (map frame_of [(5, 2, false)%Z]).

(** A full array. *)
Definition full_game : Game := set_N_OBSTACLES Game_init MAX_N_OBSTACLES.

(** Two rectangles that overlap by one unit on each axis. *)
Definition tie_mover : Rectangle := mkRectangle 0 0 (fl 2) (fl 2).

(** ** Frames of the operations *)

(** What a function leaves alone in the player: everything but the
    position. *)
Definition same_player_but_position (p p' : Player) : Prop :=
  velocity p' = velocity p /\ size p' = size p /\ speed p' = speed p /\
  jump_impulse p' = jump_impulse p /\ health p' = health p /\
  max_health p' = max_health p /\ is_grounded p' = is_grounded p.

Definition same_shape (g g' : Game) : Prop :=
  N_OBSTACLES g' = N_OBSTACLES g /\
  length (OBSTACLES g') = length (OBSTACLES g) /\
  CAMERA g' = CAMERA g.

(** ** Invariants of the level *)

(** After [n] spawns of a load: the count, the array length, the four
    static slots, and no static slot flagged as carrying the player. *)
Definition LevelInv (n : Z) (g : Game) : Prop :=
  N_OBSTACLES g = n /\
  length (OBSTACLES g) = Z.to_nat MAX_N_OBSTACLES /\
  (forall k : nat, (k < 4)%nat -> o_speed (OBSTACLES g !!! k) = 0) /\
  (forall k : nat, o_speed (OBSTACLES g !!! k) = 0 ->
                   is_player_attached (OBSTACLES g !!! k) = false).

(** The part of [LevelInv] that speaks of one slot. *)
Definition slot_ok (k : nat) (o : Obstacle) : Prop :=
  ((k < 4)%nat -> o_speed o = 0) /\ (o_speed o = 0 -> is_player_attached o = false).

Definition HealthInv (p : Player) : Prop :=
  max_health p = PLAYER_MAX_HEALTH /\ health p <= max_health p.

(** Slot by slot, two arrays hold obstacles related by [cmp] below index
    [n]. *)
Definition slots_agree (cmp : nat -> Obstacle -> Obstacle -> Prop) (n : Z)
    (g1 g2 : Game) : Prop :=
  N_OBSTACLES g1 = n /\ N_OBSTACLES g2 = n /\
  length (OBSTACLES g1) = Z.to_nat MAX_N_OBSTACLES /\
  length (OBSTACLES g2) = Z.to_nat MAX_N_OBSTACLES /\
  forall k : nat, (k < Z.to_nat n)%nat -> cmp k (OBSTACLES g1 !!! k) (OBSTACLES g2 !!! k).

(** Same spawn configuration. *)
Definition same_config (k : nat) (o1 o2 : Obstacle) : Prop :=
  spawn_config o1 = spawn_config o2.

(** Same spawn configuration up to what [load_game] draws at random: the
    [x] of the rectangle and the speed of the ten platforms. *)
Definition same_config_but_draws (k : nat) (o1 o2 : Obstacle) : Prop :=
  start o1 = start o2 /\ end_ o1 = end_ o2 /\
  ry (rect o1) = ry (rect o2) /\
  width (rect o1) = width (rect o2) /\ height (rect o1) = height (rect o2) /\
  ((k < 4)%nat -> rx (rect o1) = rx (rect o2) /\ o_speed o1 = o_speed o2).

(** The ranges the draws of a platform lie in. *)
Definition drawn_in_range (o : Obstacle) : Prop :=
  fl (-15) <= rx (rect o) /\ rx (rect o) <= fl 5 /\
  fl 5 <= o_speed o /\ o_speed o <= fl 9.

(** * The rest of [main.c] *)

(** ** [lerp_color] *)

(** raylib's [Color]: four [unsigned char] channels. *)
Record Color : Type :=
  mkColor { chan_r : Z; chan_g : Z; chan_b : Z; chan_a : Z }.

(** The colours of [raylib.h] the health bar blends. *)
Definition RED : Color := mkColor 230 41 55 255.
Definition GREEN : Color := mkColor 0 228 48 255.

(** The conversion of a floating value to [unsigned char]: the value is
    truncated towards zero, and the behaviour is undefined ([None]) when
    the result does not fit the type. *)
Definition to_uchar (q : Qc) : option Z :=
  let z := Z.quot (Qnum q) (Zpos (Qden q)) in
  if ((0 <=? z) && (z <=? 255))%Z then Some z else None.

Definition lerp_channel (min_c max_c : Z) (ratio : Qc) : option Z :=
  to_uchar ((1 - ratio) * fl (inject_Z min_c) + ratio * fl (inject_Z max_c)).

Definition lerp_color (min_color max_color : Color) (ratio : Qc) : option Color :=
  match lerp_channel (chan_r min_color) (chan_r max_color) ratio,
        lerp_channel (chan_g min_color) (chan_g max_color) ratio,
        lerp_channel (chan_b min_color) (chan_b max_color) ratio,
        lerp_channel (chan_a min_color) (chan_a max_color) ratio with
  | Some r', Some g', Some b', Some a' => Some (mkColor r' g' b' a')
  | _, _, _, _ => None
  end.

(** A colour whose channels fit [unsigned char]. *)
Definition Color_ok (c : Color) : Prop :=
  (0 <= chan_r c <= 255)%Z /\ (0 <= chan_g c <= 255)%Z /\
  (0 <= chan_b c <= 255)%Z /\ (0 <= chan_a c <= 255)%Z.

(** [z] lies between [x] and [y], whichever is the smaller. *)
Definition Zbetween (x y z : Z) : Prop :=
  (Z.min x y <= z <= Z.max x y)%Z.

(** ** [draw_ui] *)

(** What [draw_ui] hands to [DrawRectangleRounded]: the background, the
    white bar of the health shown a moment ago, and the health bar with
    its colour. *)
Record HealthBar : Type := mkHealthBar {
  background_rect : Rectangle;
  difference_rect : Rectangle;
  healthbar_rect : Rectangle;
  healthbar_color : option Color
}.

(** The function-static [health_view] before the first call. *)
Definition health_view_init : Qc := PLAYER_MAX_HEALTH.

(** [draw_ui], given the frame time and the value of its static
    [health_view]: the new [health_view] and what is drawn. *)
Definition draw_ui (dt : Qc) (p : Player) (health_view : Qc) : Qc * HealthBar :=
  let margin := fl 10 in
  let pad := fl 5 in
  let width_ := fl 300 in
  let height_ := fl 40 in
  let health_view_speed := fl 80 in
  (* update health view *)
  let health_view :=
    if health p <? health_view then
      let health_view_step := dt * health_view_speed in
      let health_view := health_view - health_view_step in
      if health_view <? health p then health p else health_view
    else health p in
  (* background *)
  let background := mkRectangle margin margin width_ height_ in
  (* healthbar *)
  let healthbar :=
    mkRectangle (rx background + pad) (ry background + pad)
                (width background - fl 2 * pad) (height background - fl 2 * pad) in
  let health_ratio := health p / max_health p in
  let healthbar := mkRectangle (rx healthbar) (ry healthbar)
                               (width healthbar * health_ratio) (height healthbar) in
  let color := lerp_color RED GREEN health_ratio in
  (* difference *)
  let difference :=
    mkRectangle (rx healthbar) (ry healthbar)
                (width background - fl 2 * pad) (height healthbar) in
  let difference_ratio := health_view / max_health p in
  let difference := mkRectangle (rx difference) (ry difference)
                                (width difference * difference_ratio)
                                (height difference) in
  (health_view, mkHealthBar background difference healthbar color).


(** ** Vocabulary for the remaining properties *)

(** A platform carries the player along: it moves and is flagged. *)
Definition carries (o : Obstacle) : bool :=
  (0 <? o_speed o) && is_player_attached o.

(** The frame [f] with the W key as given. *)
Definition with_key_W (f : Frame) (w : bool) : Frame :=
  mkFrame (dt f) (key_A f) (key_D f) w (key_R f) (rand f).

(** The frame [f] with the A and D keys as given. *)
Definition with_keys_AD (f : Frame) (a d : bool) : Frame :=
  mkFrame (dt f) a d (key_W f) (key_R f) (rand f).

(** The player overlaps no obstacle below the count. *)
Definition no_overlap (g : Game) : Prop :=
  forall i : Z, (0 <= i < N_OBSTACLES g)%Z ->
    CheckCollisionRecs (get_player_rect g) (rect (obstacle_at g i)) = false.

(** What a tick never alters in an obstacle of the level [o0]: its patrol
    endpoints, its height on the screen, its size and its speed. *)
Definition same_patrol (o o0 : Obstacle) : Prop :=
  start o = start o0 /\ end_ o = end_ o0 /\ o_speed o = o_speed o0 /\
  ry (rect o) = ry (rect o0) /\
  width (rect o) = width (rect o0) /\ height (rect o) = height (rect o0).

(** A state for the properties of a single overlap: the level of
    [rand_right] with the player sunk one unit into the ground. *)
Definition sunk_in_ground : Game :=
  let g := load_game rand_right Game_init in
  set_PLAYER g (set_position (PLAYER g) (mkVector2 0 (fl 17))).

(** The player of [sunk_in_ground] one unit above the ground instead. *)
Definition above_ground : Game :=
  let g := load_game rand_right Game_init in
  set_PLAYER g (set_position (PLAYER g) (mkVector2 0 (fl 15))).



(** What [load_game] sets in the player and nothing changes afterwards. *)
Definition Player_consts (p : Player) : Prop :=
  size p = mkVector2 (fl 1) (fl 2) /\ speed p = fl 15 /\
  jump_impulse p = fl 30 /\ max_health p = PLAYER_MAX_HEALTH /\
  vx (velocity p) = 0.

(** The frames' [update]s, from any state. *)
Definition updates (sqrtf : Qc -> Qc) (frames : list Frame) (g : Game) : Game :=
  fold_left (fun g f => update sqrtf f g) frames g.

(** ** The level of [load_game] *)

(** The rectangles of the four static obstacles, in spawn order: ground,
    left wall, left stair, right wall. *)
Definition static_rect (k : nat) : Rectangle :=
  match k with
  | 0%nat => mkRectangle (fl (-20)) (fl 20) (fl 40) (fl (5 # 2))
  | 1%nat => mkRectangle (fl (-20)) (fl (-100)) (fl (5 # 2)) (fl 120)
  | 2%nat => mkRectangle (fl (-35 # 2)) (fl 15) (fl (5 # 2)) (fl 5)
  | _ => mkRectangle (fl (35 # 2)) (fl (-100)) (fl (5 # 2)) (fl 120)
  end.

(** The height of the [i]-th platform. *)
Definition platform_y (i : Z) : Qc := fl 8 - fl (inject_Z i) * fl 8.

(** What slot [k] of the level holds: a static obstacle where and as it
    was spawned, or a platform at its height, with its size and patrol
    endpoints, somewhere along its patrol, at a speed between 5 and 9. *)
Definition level_slot (k : nat) (o : Obstacle) : Prop :=
  if (k <? 4)%nat then
    spawn_config o =
      (static_rect k,
       mkVector2 (rx (static_rect k)) (ry (static_rect k)),
       mkVector2 (rx (static_rect k)) (ry (static_rect k)), 0)
  else
    let y := platform_y (Z.of_nat k - 4) in
    start o = mkVector2 (fl (-15)) y /\ end_ o = mkVector2 (fl 5) y /\
    ry (rect o) = y /\ width (rect o) = fl 10 /\ height (rect o) = fl (5 # 2) /\
    drawn_in_range o.

Definition Level (g : Game) : Prop :=
  N_OBSTACLES g = 14%Z /\
  length (OBSTACLES g) = Z.to_nat MAX_N_OBSTACLES /\
  forall k : nat, (k < 14)%nat -> level_slot k (OBSTACLES g !!! k).


(** One moving obstacle whose patrol is the single point (3, 4). *)
Definition pinned_game : Game :=
  snd (spawn_obstacle (mkRectangle 0 0 (fl 1) (fl 1))
                      (mkVector2 (fl 3) (fl 4)) (mkVector2 (fl 3) (fl 4)) (fl 2)
                      Game_init).

(** ** Standing on the ground *)









(** ** Loading twice *)

(** Two obstacles have the same flags. *)
Definition same_flags (o1 o2 : Obstacle) : Prop :=
  is_moving_to_start o1 = is_moving_to_start o2 /\
  is_player_attached o1 = is_player_attached o2.

(** Slot [k] of two arrays during two loads run side by side, [n] spawns
    done: the slots spawned so far and those beyond the level are equal,
    the others have the same flags. *)
Definition slot_sim (n : Z) (k : nat) (o1 o2 : Obstacle) : Prop :=
  ((k < Z.to_nat n)%nat \/ (14 <= k)%nat -> o1 = o2) /\ same_flags o1 o2.

Definition load_sim (n : Z) (g1 g2 : Game) : Prop :=
  N_OBSTACLES g1 = n /\ N_OBSTACLES g2 = n /\
  PLAYER g1 = PLAYER g2 /\ CAMERA g1 = CAMERA g2 /\
  length (OBSTACLES g1) = Z.to_nat MAX_N_OBSTACLES /\
  length (OBSTACLES g2) = Z.to_nat MAX_N_OBSTACLES /\
  forall k : nat, slot_sim n k (OBSTACLES g1 !!! k) (OBSTACLES g2 !!! k).
(** * Properties *)

(** ** Arithmetic on floats, through the rationals underneath *)

Lemma Qcltb_true (a b : Qc) : (a <? b) = true <-> a < b.
Proof.
  unfold Qcltb, Qclt. rewrite negb_true_iff, <- not_true_iff_false, Qle_bool_iff.
  split; [apply Qnot_le_lt | apply Qlt_not_le].
Qed.

Lemma Qcltb_false (a b : Qc) : (a <? b) = false <-> b <= a.
Proof.
  unfold Qcltb, Qcle. rewrite negb_false_iff. apply Qle_bool_iff.
Qed.

Lemma Qc_eq_Qeq (a b : Qc) : a = b <-> (this a == this b)%Q.
Proof. split; [now intros -> | apply Qc_is_canon]. Qed.

Lemma this_plus (a b : Qc) : (this (a + b) == this a + this b)%Q.
Proof. apply Qred_correct. Qed.

Lemma this_mult (a b : Qc) : (this (a * b) == this a * this b)%Q.
Proof. apply Qred_correct. Qed.

Lemma this_opp (a : Qc) : (this (- a) == - this a)%Q.
Proof. apply Qred_correct. Qed.

Lemma this_minus (a b : Qc) : (this (a - b) == this a - this b)%Q.
Proof. unfold Qcminus. now rewrite this_plus, this_opp. Qed.

Lemma this_inv (a : Qc) : (this (/ a) == / this a)%Q.
Proof. apply Qred_correct. Qed.

Lemma this_div (a b : Qc) : (this (a / b) == this a / this b)%Q.
Proof. unfold Qcdiv. now rewrite this_mult, this_inv. Qed.

Lemma this_fl (q : Q) : (this (fl q) == q)%Q.
Proof. apply Qred_correct. Qed.

Lemma this_abs (a : Qc) : this (fabsf a) = Qabs (this a).
Proof. reflexivity. Qed.

Create Rewrite HintDb qc_this.

#[export] Hint Rewrite this_plus this_mult this_opp this_minus this_inv
  this_div this_fl this_abs : qc_this.

(** State a goal on [Qc] as one on [Q], where [lra] and [nra] work. *)
Ltac qc_to_q :=
  rewrite ?Qc_eq_Qeq in *;
  unfold Qclt, Qcle,
    GRAVITY_ACCELERATION, PLAYER_MAX_HEALTH, MAX_SPEED_WITHOUT_DAMAGE in *;
  change (this (Q2Qc 0)) with 0%Q in *;
  change (this (Q2Qc 1)) with 1%Q in *;
  autorewrite with qc_this in *.

Ltac qc_lra := qc_to_q; lra.
Ltac qc_nra := qc_to_q; nra.


(** Case analysis on every float comparison of the goal. *)
Ltac cases_ltb :=
  repeat match goal with
  | |- context [?a <? ?b] =>
      let H := fresh "C" in
      destruct (a <? b) eqn:H;
      [apply Qcltb_true in H | apply Qcltb_false in H]
  end.


(** Split a conjunction into its parts, and nothing else. *)
Ltac split_conj := repeat match goal with |- _ /\ _ => split end.

(** ** [get_aabb_mtv] *)









(** ** Loops and array slots *)

Lemma for_loop_nat {S : Type} (n : nat) (body : Z -> S -> S) (s : S) :
  for_loop (Z.of_nat n) body s =
  fold_left (fun s i => body (Z.of_nat i) s) (seq 0 n) s.
Proof. unfold for_loop. now rewrite Nat2Z.id. Qed.

Lemma for_loop_S {S : Type} (n : nat) (body : Z -> S -> S) (s : S) :
  for_loop (Z.of_nat (Datatypes.S n)) body s =
  body (Z.of_nat n) (for_loop (Z.of_nat n) body s).
Proof.
  rewrite !for_loop_nat, seq_S, fold_left_app. reflexivity.
Qed.

Lemma for_loop_neg {S : Type} (n : Z) (body : Z -> S -> S) (s : S) :
  (n <= 0)%Z -> for_loop n body s = s.
Proof.
  intros Hn. unfold for_loop.
  replace (Z.to_nat n) with 0%nat by lia. reflexivity.
Qed.

(** Induction on the number of iterations done: [P i s] after the first
    [i] iterations. *)
Lemma for_loop_ind {S : Type} (P : Z -> S -> Prop) (n : Z) (body : Z -> S -> S) (s : S) :
  (0 <= n)%Z ->
  P 0%Z s ->
  (forall i s, (0 <= i < n)%Z -> P i s -> P (i + 1)%Z (body i s)) ->
  P n (for_loop n body s).
Proof.
  intros Hn Hs Hbody.
  rewrite <- (Z2Nat.id n) in * by lia.
  assert (Hle : (Z.to_nat n <= Z.to_nat n)%nat) by lia.
  revert Hle. generalize (Z.to_nat n) at 1 3 4 as m.
  induction m as [| m IH]; intros Hle.
  - exact Hs.
  - rewrite for_loop_S, Nat2Z.inj_succ. apply Hbody; [lia | apply IH; lia].
Qed.

(** An invariant of the body is an invariant of the loop. *)
Lemma for_loop_inv {S : Type} (P : S -> Prop) (n : Z) (body : Z -> S -> S) (s : S) :
  (forall i s, (0 <= i < n)%Z -> P s -> P (body i s)) -> P s -> P (for_loop n body s).
Proof.
  intros Hbody Hs.
  destruct (Z.le_gt_cases n 0) as [Hn | Hn].
  { now rewrite for_loop_neg. }
  apply (for_loop_ind (fun _ => P)); [lia | exact Hs | exact Hbody].
Qed.

Lemma list_insert_total_id (l : list Obstacle) (i : nat) :
  <[i := l !!! i]> l = l.
Proof.
  apply list_insert_id'. intros Hi. now apply list_lookup_lookup_total_lt.
Qed.

Section Frames.

Variable sqrtf : Qc -> Qc.

(** A property of one array slot survives a write to any slot as soon as
    the written value has it whenever the overwritten one had. *)
Lemma slot_insert (Φ : Obstacle -> Prop) (l : list Obstacle) (i k : nat) (x : Obstacle) :
  Φ (l !!! k) -> (Φ (l !!! i) -> Φ x) -> Φ (<[i := x]> l !!! k).
Proof.
  intros Hk Hx. rewrite list_lookup_total_insert.
  case_decide as H; [destruct H as [-> _]; auto | exact Hk].
Qed.

(** *** [update_obstacles] *)

Lemma move_platform_fields (dt : Qc) (o : Obstacle) :
  start (move_platform sqrtf dt o) = start o /\
  end_ (move_platform sqrtf dt o) = end_ o /\
  o_speed (move_platform sqrtf dt o) = o_speed o /\
  is_player_attached (move_platform sqrtf dt o) = is_player_attached o /\
  width (rect (move_platform sqrtf dt o)) = width (rect o) /\
  height (rect (move_platform sqrtf dt o)) = height (rect o).
Proof.
  unfold move_platform.
  destruct (negb _); cbn; repeat split; reflexivity.
Qed.

Lemma update_obstacles_frame (f : Frame) (g : Game) :
  same_shape g (update_obstacles sqrtf f g) /\
  same_player_but_position (PLAYER g) (PLAYER (update_obstacles sqrtf f g)).
Proof.
  unfold update_obstacles.
  apply (for_loop_inv
           (fun s => same_shape g s /\ same_player_but_position (PLAYER g) (PLAYER s))).
  - intros i s _ [(HN & HL & HC) HP]. unfold update_obstacles_body.
    destruct (negb _); [repeat split; auto; apply HP |].
    unfold same_shape, set_obstacle_at.
    destruct (is_player_attached _); cbn; rewrite length_insert;
      repeat split; auto; apply HP.
  - repeat split.
Qed.

Lemma update_obstacles_slot (Φ : Obstacle -> Prop) (f : Frame) (g : Game) (k : nat) :
  (forall o, Φ o -> 0 < o_speed o -> Φ (move_platform sqrtf (dt f) o)) ->
  Φ (OBSTACLES g !!! k) -> Φ (OBSTACLES (update_obstacles sqrtf f g) !!! k).
Proof.
  intros Hstep Hk. unfold update_obstacles.
  apply (for_loop_inv (fun s => Φ (OBSTACLES s !!! k))); [| exact Hk].
  intros i s _ Hs. unfold update_obstacles_body, obstacle_at.
  destruct (0 <? o_speed _) eqn:Hsp; cbn [negb]; [| exact Hs].
  apply Qcltb_true in Hsp.
  assert (Φ (<[Z.to_nat i := move_platform sqrtf (dt f) (OBSTACLES s !!! Z.to_nat i)]>
               (OBSTACLES s) !!! k)) as H.
  { apply slot_insert; [exact Hs | intros Hi; now apply Hstep]. }
  destruct (is_player_attached _); exact H.
Qed.

(** *** [update_player_collisions] *)

Lemma collisions_loop_frame (g : Game) :
  same_shape g (snd (collisions_loop g)) /\
  PLAYER (snd (collisions_loop g)) = PLAYER g.
Proof.
  unfold collisions_loop.
  apply (for_loop_inv (fun s => same_shape g (snd s) /\ PLAYER (snd s) = PLAYER g)).
  - intros i [e s] _ [(HN & HL & HC) HP].
    unfold same_shape, collisions_body, set_obstacle_at. cbn in *.
    rewrite length_insert. repeat split; auto.
  - repeat split.
Qed.

Lemma collisions_loop_slot (Φ : Obstacle -> Prop) (g : Game) (k : nat) :
  (forall o b, Φ o -> Φ (set_is_player_attached o (b && (0 <? o_speed o)))) ->
  Φ (OBSTACLES g !!! k) -> Φ (OBSTACLES (snd (collisions_loop g)) !!! k).
Proof.
  intros Hstep Hk. unfold collisions_loop.
  apply (for_loop_inv (fun s => Φ (OBSTACLES (snd s) !!! k))); [| exact Hk].
  intros i [e s] _ Hs. unfold collisions_body, set_obstacle_at, obstacle_at. cbn in *.
  apply slot_insert; [exact Hs | intros Hi; now apply Hstep].
Qed.

Lemma update_player_collisions_frame (g : Game) :
  same_shape g (update_player_collisions sqrtf g) /\
  OBSTACLES (update_player_collisions sqrtf g) = OBSTACLES (snd (collisions_loop g)) /\
  max_health (PLAYER (update_player_collisions sqrtf g)) = max_health (PLAYER g) /\
  health (PLAYER (update_player_collisions sqrtf g)) <= health (PLAYER g).
Proof.
  unfold update_player_collisions.
  destruct (collisions_loop_frame g) as [Hshape HP].
  destruct (collisions_loop g) as [e g1]. cbn [snd] in *.
  split; [exact Hshape |]. split; [reflexivity |].
  cbn [PLAYER set_PLAYER]. rewrite HP.
  destruct (_ && _).
  - cbn. split; [reflexivity |].
    destruct (_ <? 0) eqn:Hd;
      [apply Qcltb_true in Hd | apply Qcltb_false in Hd]; qc_lra.
  - destruct (_ && _); cbn; split; try reflexivity; apply Qcle_refl.
Qed.

(** *** [update_player] and [update_camera] *)

Lemma update_player_frame (f : Frame) (g : Game) :
  same_shape g (update_player sqrtf f g) /\
  OBSTACLES (update_player sqrtf f g) = OBSTACLES g /\
  health (PLAYER (update_player sqrtf f g)) = health (PLAYER g) /\
  max_health (PLAYER (update_player sqrtf f g)) = max_health (PLAYER g) /\
  is_grounded (PLAYER (update_player sqrtf f g)) = is_grounded (PLAYER g).
Proof.
  unfold update_player. cbn [PLAYER set_PLAYER OBSTACLES].
  split; [repeat split |]. split; [reflexivity |].
  destruct (key_W f && _); cbn; repeat split.
Qed.

Lemma update_camera_frame (g : Game) :
  PLAYER (update_camera sqrtf g) = PLAYER g /\
  N_OBSTACLES (update_camera sqrtf g) = N_OBSTACLES g /\
  OBSTACLES (update_camera sqrtf g) = OBSTACLES g.
Proof. repeat split. Qed.

End Frames.

(** ** [spawn_obstacle] *)

Lemma spawn_obstacle_slot (Φ : Obstacle -> Prop) (r : Rectangle) (s e : Vector2)
    (sp : Qc) (g : Game) (k : nat) :
  Φ (OBSTACLES g !!! k) ->
  (Z.to_nat (N_OBSTACLES g) = k -> Φ (OBSTACLES g !!! k) ->
   Φ (mkObstacle r s e sp (is_moving_to_start (OBSTACLES g !!! k))
                 (is_player_attached (OBSTACLES g !!! k)))) ->
  Φ (OBSTACLES (snd (spawn_obstacle r s e sp g)) !!! k).
Proof.
  intros Hk Hnew. unfold spawn_obstacle.
  destruct (_ =? _)%Z; [exact Hk |].
  unfold set_obstacle_at, obstacle_at. cbn.
  rewrite list_lookup_total_insert.
  case_decide as H; [destruct H as [<- _]; auto | exact Hk].
Qed.

Lemma spawn_obstacle_frame (r : Rectangle) (s e : Vector2) (sp : Qc) (g : Game) :
  PLAYER (snd (spawn_obstacle r s e sp g)) = PLAYER g /\
  CAMERA (snd (spawn_obstacle r s e sp g)) = CAMERA g /\
  length (OBSTACLES (snd (spawn_obstacle r s e sp g))) = length (OBSTACLES g).
Proof.
  unfold spawn_obstacle. destruct (_ =? _)%Z; [repeat split |].
  unfold set_obstacle_at. cbn. now rewrite length_insert.
Qed.

(** C8.  With room left, [spawn_obstacle] writes the obstacle into the
    first free slot, returns that index and increments the count, the
    older slots untouched; with the array full it returns -1 and the state
    is unchanged. *)
Theorem spawn_obstacle_capacity (r : Rectangle) (s e : Vector2) (sp : Qc) (g : Game) :
  Game_wf g ->
  let idx := fst (spawn_obstacle r s e sp g) in
  let g' := snd (spawn_obstacle r s e sp g) in
  if (N_OBSTACLES g <? MAX_N_OBSTACLES)%Z
  then idx = N_OBSTACLES g /\
       N_OBSTACLES g' = (N_OBSTACLES g + 1)%Z /\
       length (OBSTACLES g') = length (OBSTACLES g) /\
       spawned_as (obstacle_at g' idx) r s e sp /\
       (forall j : Z, (0 <= j)%Z -> j <> idx -> obstacle_at g' j = obstacle_at g j) /\
       PLAYER g' = PLAYER g /\ CAMERA g' = CAMERA g
  else idx = (-1)%Z /\ g' = g.
Proof.
  intros [[HN0 HN1] Hlen]. unfold spawn_obstacle.
  destruct (N_OBSTACLES g <? MAX_N_OBSTACLES)%Z eqn:Hlt.
  - apply Z.ltb_lt in Hlt.
    replace (N_OBSTACLES g =? MAX_N_OBSTACLES)%Z with false
      by (symmetry; apply Z.eqb_neq; lia).
    unfold set_obstacle_at, obstacle_at, spawned_as. cbn.
    rewrite length_insert, list_lookup_total_insert_eq by lia.
    repeat split.
    intros j Hj Hne. apply list_lookup_total_insert_ne. lia.
  - apply Z.ltb_ge in Hlt.
    replace (N_OBSTACLES g =? MAX_N_OBSTACLES)%Z with true
      by (symmetry; apply Z.eqb_eq; lia).
    split; reflexivity.
Qed.

Lemma spawn_obstacle_capacity_witness :
  fst (spawn_obstacle tie_mover Vector2Zero Vector2Zero (fl 5) full_game) = (-1)%Z /\
  snd (spawn_obstacle tie_mover Vector2Zero Vector2Zero (fl 5) full_game) = full_game.
Proof.
  apply (spawn_obstacle_capacity tie_mover Vector2Zero Vector2Zero (fl 5) full_game).
  split; [split |]; vm_compute; congruence.
Defined.

(** ** [load_game] *)

Lemma load_game_slot (Φ : Obstacle -> Prop) (rand : nat -> Z) (g : Game) (k : nat) :
  (forall o r s e sp,
     Φ o -> Φ (mkObstacle r s e sp (is_moving_to_start o) (is_player_attached o))) ->
  Φ (OBSTACLES g !!! k) -> Φ (OBSTACLES (load_game rand g) !!! k).
Proof.
  intros Hnew Hk. unfold load_game.
  apply (for_loop_inv (fun s => Φ (OBSTACLES s !!! k))).
  { intros i s _ Hs. unfold load_game_platform.
    apply (spawn_obstacle_slot Φ); [exact Hs | intros _; apply Hnew]. }
  unfold spawn_static_obstacle.
  do 4 (apply (spawn_obstacle_slot Φ); [| intros _; apply Hnew]).
  exact Hk.
Qed.

(** C10.  [spawn_obstacle] writes [rect], [start], [end] and [speed] of
    the slot it fills and nothing else but the count: the two flags of
    every slot, the other slots, the player and the camera are as before.
    Hence after [load_game], which spawns into the same slots again, every
    slot still has the flags of the previous level instance. *)
Theorem spawn_obstacle_keeps_flags :
  (forall (r : Rectangle) (s e : Vector2) (sp : Qc) (g : Game) (k : nat),
     let g' := snd (spawn_obstacle r s e sp g) in
     is_moving_to_start (OBSTACLES g' !!! k) = is_moving_to_start (OBSTACLES g !!! k) /\
     is_player_attached (OBSTACLES g' !!! k) = is_player_attached (OBSTACLES g !!! k) /\
     (k <> Z.to_nat (N_OBSTACLES g) -> OBSTACLES g' !!! k = OBSTACLES g !!! k) /\
     PLAYER g' = PLAYER g /\ CAMERA g' = CAMERA g /\
     (N_OBSTACLES g' = N_OBSTACLES g \/ N_OBSTACLES g' = (N_OBSTACLES g + 1)%Z)) /\
  (forall (rand : nat -> Z) (g : Game) (k : nat),
     is_moving_to_start (OBSTACLES (load_game rand g) !!! k) =
       is_moving_to_start (OBSTACLES g !!! k) /\
     is_player_attached (OBSTACLES (load_game rand g) !!! k) =
       is_player_attached (OBSTACLES g !!! k)).
Proof.
  split.
  - intros r s e sp g k g'. subst g'.
    pose proof (spawn_obstacle_slot
      (fun o => is_moving_to_start o = is_moving_to_start (OBSTACLES g !!! k) /\
                is_player_attached o = is_player_attached (OBSTACLES g !!! k))
      r s e sp g k) as Hflags. cbn beta in Hflags.
    destruct Hflags as [Hm Ha]; [split; reflexivity | intros _ _; split; reflexivity |].
    destruct (spawn_obstacle_frame r s e sp g) as (HP & HC & _).
    repeat split; auto.
    + intros Hne.
      apply (spawn_obstacle_slot (fun o => o = OBSTACLES g !!! k)); [reflexivity |].
      intros Heq _. congruence.
    + unfold spawn_obstacle. destruct (_ =? _)%Z; [left | right]; reflexivity.
  - intros rand g k.
    apply (load_game_slot
      (fun o => is_moving_to_start o = is_moving_to_start (OBSTACLES g !!! k) /\
                is_player_attached o = is_player_attached (OBSTACLES g !!! k)));
      [intros o r s e sp Ho; exact Ho | split; reflexivity].
Qed.

(** The flags [load_game] leaves behind when the player stands on the
    lowest platform: the platform is spawned anew on its left end, still
    flagged as heading there and as carrying the player. *)
Lemma spawn_obstacle_keeps_flags_witness :
  is_moving_to_start (OBSTACLES (load_game rand_left landed_on_platform) !!! 4%nat)
    = true /\
  is_player_attached (OBSTACLES (load_game rand_left landed_on_platform) !!! 4%nat)
    = true.
Proof.
  destruct (proj2 spawn_obstacle_keeps_flags rand_left landed_on_platform 4%nat)
    as [-> ->].
  split; lazy; reflexivity.
Defined.

(** ** The level after [load_game] *)

Lemma randf_range (r : Z) : (0 <= r <= INT32_MAX)%Z -> 0 <= randf r /\ randf r <= 1.
Proof.
  intros [H0 H1]. unfold randf.
  assert (0 < inject_Z INT32_MAX)%Q as HM by reflexivity.
  assert (0 <= inject_Z r)%Q as Hr0 by (rewrite <- (Zle_Qle 0); exact H0).
  assert (inject_Z r <= inject_Z INT32_MAX)%Q as Hr1 by (rewrite <- Zle_Qle; exact H1).
  qc_to_q. split.
  - apply Qle_shift_div_l; [exact HM | lra].
  - apply Qle_shift_div_r; [exact HM | lra].
Qed.

Lemma randf_min_max_range (r : Z) (lo hi : Qc) :
  (0 <= r <= INT32_MAX)%Z -> lo <= hi ->
  lo <= randf_min_max r lo hi /\ randf_min_max r lo hi <= hi.
Proof.
  intros Hr Hlh. unfold randf_min_max.
  destruct (randf_range r Hr) as [H0 H1].
  set (p := randf r) in *. clearbody p. qc_to_q. nra.
Qed.

(** The equation of a spawn that finds room. *)
Lemma spawn_obstacle_room (r : Rectangle) (s e : Vector2) (sp : Qc) (g : Game) :
  N_OBSTACLES g <> MAX_N_OBSTACLES ->
  snd (spawn_obstacle r s e sp g) =
  mkGame (PLAYER g) (CAMERA g) (N_OBSTACLES g + 1)
         (<[Z.to_nat (N_OBSTACLES g) :=
              mkObstacle r s e sp
                (is_moving_to_start (OBSTACLES g !!! Z.to_nat (N_OBSTACLES g)))
                (is_player_attached (OBSTACLES g !!! Z.to_nat (N_OBSTACLES g)))]>
            (OBSTACLES g)).
Proof.
  intros Hn. unfold spawn_obstacle.
  replace (N_OBSTACLES g =? MAX_N_OBSTACLES)%Z with false
    by (symmetry; now apply Z.eqb_neq).
  reflexivity.
Qed.

Lemma LevelInv_spawn_static (n : Z) (r : Rectangle) (g : Game) :
  (0 <= n < 4)%Z -> LevelInv n g ->
  LevelInv (n + 1) (snd (spawn_static_obstacle r g)).
Proof.
  intros Hn (HN & Hlen & Hst & Hatt). unfold spawn_static_obstacle.
  rewrite spawn_obstacle_room by (rewrite HN; unfold MAX_N_OBSTACLES; lia).
  unfold LevelInv. cbn [N_OBSTACLES OBSTACLES]. rewrite length_insert, HN.
  repeat split; auto.
  - intros k Hk. rewrite list_lookup_total_insert.
    case_decide; [reflexivity | now apply Hst].
  - intros k. rewrite list_lookup_total_insert.
    case_decide as Hd; [| apply Hatt].
    intros _. cbn. destruct Hd as [<- _]. apply Hatt, Hst. lia.
Qed.

Lemma LevelInv_spawn_platform (n : Z) (r : Rectangle) (s e : Vector2) (sp : Qc) (g : Game) :
  (4 <= n < MAX_N_OBSTACLES)%Z -> 0 < sp -> LevelInv n g ->
  LevelInv (n + 1) (snd (spawn_obstacle r s e sp g)).
Proof.
  intros Hn Hsp (HN & Hlen & Hst & Hatt).
  rewrite spawn_obstacle_room by (rewrite HN; lia).
  unfold LevelInv. cbn [N_OBSTACLES OBSTACLES]. rewrite length_insert, HN.
  repeat split; auto.
  - intros k Hk. rewrite list_lookup_total_insert_ne by lia. now apply Hst.
  - intros k. rewrite list_lookup_total_insert.
    case_decide as Hd; [| apply Hatt].
    cbn. intros H0. rewrite H0 in Hsp. now apply Qclt_not_eq in Hsp.
Qed.

Lemma LevelInv_load_game (rand : nat -> Z) (n : Z) (g : Game) :
  rand_ok rand -> LevelInv n g -> LevelInv 14 (load_game rand g).
Proof.
  intros Hrand (_ & Hlen & Hst & Hatt). unfold load_game.
  apply (for_loop_ind (fun i s => LevelInv (4 + i) s)); [lia | |].
  - apply (LevelInv_spawn_static 3); [lia |].
    apply (LevelInv_spawn_static 2); [lia |].
    apply (LevelInv_spawn_static 1); [lia |].
    apply (LevelInv_spawn_static 0); [lia |].
    repeat split; auto.
  - intros i s Hi Hs. unfold load_game_platform.
    replace (4 + (i + 1))%Z with (4 + i + 1)%Z by lia.
    apply LevelInv_spawn_platform; [unfold MAX_N_OBSTACLES; lia | | exact Hs].
    destruct (randf_min_max_range (rand (2 * Z.to_nat i + 1)%nat) (fl 5) (fl 9))
      as [Hlo _]; [apply Hrand | qc_lra |].
    eapply Qclt_le_trans; [| exact Hlo]. reflexivity.
Qed.

Lemma load_game_PLAYER (rand : nat -> Z) (g : Game) :
  PLAYER (load_game rand g) =
  mkPlayer Vector2Zero Vector2Zero (mkVector2 (fl 1) (fl 2)) (fl 15) (fl 30)
           PLAYER_MAX_HEALTH PLAYER_MAX_HEALTH (is_grounded (PLAYER g)).
Proof. reflexivity. Qed.

Lemma LevelInv_init : LevelInv 0 Game_init.
Proof.
  repeat split.
  - intros k _. unfold Game_init. cbn [OBSTACLES].
    destruct (decide (k < Z.to_nat MAX_N_OBSTACLES)%nat) as [Hk | Hk].
    + now rewrite lookup_total_replicate_2.
    + rewrite list_lookup_total_alt, (proj1 (lookup_replicate_None _ _ _)) by lia.
      reflexivity.
  - intros k _. unfold Game_init. cbn [OBSTACLES].
    destruct (decide (k < Z.to_nat MAX_N_OBSTACLES)%nat) as [Hk | Hk].
    + now rewrite lookup_total_replicate_2.
    + rewrite list_lookup_total_alt, (proj1 (lookup_replicate_None _ _ _)) by lia.
      reflexivity.
Qed.

(** ** Invariants of the reachable states *)

Section Reachable.

Variable sqrtf : Qc -> Qc.

Lemma LevelInv_slots (n : Z) (g : Game) :
  LevelInv n g <->
  N_OBSTACLES g = n /\ length (OBSTACLES g) = Z.to_nat MAX_N_OBSTACLES /\
  forall k, slot_ok k (OBSTACLES g !!! k).
Proof.
  unfold LevelInv, slot_ok. split.
  - intros (HN & HL & Hst & Hatt). repeat split; auto.
  - intros (HN & HL & H). repeat split; auto; intros k; apply (H k).
Qed.

Lemma LevelInv_update_obstacles (f : Frame) (n : Z) (g : Game) :
  LevelInv n g -> LevelInv n (update_obstacles sqrtf f g).
Proof.
  rewrite !LevelInv_slots. intros (HN & HL & H).
  destruct (update_obstacles_frame sqrtf f g) as [(HN' & HL' & _) _].
  split; [congruence |]. split; [congruence |].
  intros k. apply update_obstacles_slot; [| apply H].
  intros o [Ho1 Ho2] _.
  destruct (move_platform_fields sqrtf (dt f) o) as (_ & _ & Hsp & Hat & _).
  unfold slot_ok. now rewrite Hsp, Hat.
Qed.

Lemma LevelInv_update_player_collisions (n : Z) (g : Game) :
  LevelInv n g -> LevelInv n (update_player_collisions sqrtf g).
Proof.
  rewrite !LevelInv_slots. intros (HN & HL & H).
  destruct (update_player_collisions_frame sqrtf g) as ((HN' & HL' & _) & HO & _).
  split; [congruence |]. split; [congruence |].
  intros k. rewrite HO. apply collisions_loop_slot; [| apply H].
  intros o b [Ho1 Ho2]. split; cbn; [exact Ho1 |].
  intros H0. rewrite H0. apply andb_false_r.
Qed.

Lemma LevelInv_update (f : Frame) (g : Game) :
  rand_ok (rand f) -> LevelInv 14 g -> LevelInv 14 (update sqrtf f g).
Proof.
  intros Hrand Hg. unfold update.
  assert (LevelInv 14 (update_reset f g)) as H1.
  { unfold update_reset. destruct (key_R f); [| exact Hg].
    now apply (LevelInv_load_game _ 14). }
  assert (LevelInv 14 (update_player sqrtf f (update_reset f g))) as H2.
  { destruct (update_player_frame sqrtf f (update_reset f g))
      as ((HN & HL & _) & HO & _).
    destruct H1 as (? & ? & ? & ?). unfold LevelInv. rewrite HO, HN. auto. }
  apply LevelInv_update_obstacles with (f := f) in H2.
  apply LevelInv_update_player_collisions in H2.
  exact H2.
Qed.

Lemma HealthInv_update (f : Frame) (g : Game) :
  HealthInv (PLAYER g) -> HealthInv (PLAYER (update sqrtf f g)).
Proof.
  intros Hg. unfold update.
  assert (HealthInv (PLAYER (update_reset f g))) as H1.
  { unfold update_reset. destruct (key_R f); [| exact Hg].
    rewrite load_game_PLAYER. split; [reflexivity | apply Qcle_refl]. }
  set (g1 := update_reset f g) in *.
  destruct (update_player_frame sqrtf f g1) as (_ & _ & Hh2 & Hm2 & _).
  set (g2 := update_player sqrtf f g1) in *.
  destruct (update_obstacles_frame sqrtf f g2) as [_ (_ & _ & _ & _ & Hh3 & Hm3 & _)].
  set (g3 := update_obstacles sqrtf f g2) in *.
  destruct (update_player_collisions_frame sqrtf g3) as (_ & _ & Hm4 & Hh4).
  destruct H1 as [Hmax Hle]. unfold HealthInv. cbn [PLAYER update_camera set_CAMERA].
  split; [congruence |].
  rewrite Hm4, Hm3, Hm2. eapply Qcle_trans; [exact Hh4 |].
  rewrite Hh3, Hh2. exact Hle.
Qed.

Lemma reachable_inv (g : Game) :
  reachable sqrtf g -> LevelInv 14 g /\ HealthInv (PLAYER g).
Proof.
  induction 1 as [rand0 Hrand | f g Hg [IHl IHh] [_ Hrand]].
  - split; [now apply (LevelInv_load_game _ 0), LevelInv_init |].
    rewrite load_game_PLAYER. split; [reflexivity | apply Qcle_refl].
  - split; [now apply LevelInv_update | now apply HealthInv_update].
Qed.

(** The array is never indexed out of its bounds. *)
Lemma reachable_bounds (g : Game) : reachable sqrtf g -> Game_wf g.
Proof.
  intros Hg. destruct (reachable_inv g Hg) as [(HN & HL & _) _].
  split; [rewrite HN; unfold MAX_N_OBSTACLES; lia | exact HL].
Qed.

Lemma run_reachable (rand0 : nat -> Z) (frames : list Frame) :
  rand_ok rand0 -> Forall Frame_ok frames ->
  reachable sqrtf (run sqrtf rand0 frames).
Proof.
  intros Hrand Hframes. unfold run.
  assert (reachable sqrtf (load_game rand0 Game_init)) as Hg by now constructor.
  revert Hg. generalize (load_game rand0 Game_init) as g.
  induction Hframes as [| f frames Hf _ IH]; intros g Hg; [exact Hg |].
  cbn. apply IH. now constructor.
Qed.

(** What the resolver writes into the flag of each obstacle. *)
Lemma collisions_loop_flag (g : Game) (k : nat) :
  (0 <= N_OBSTACLES g)%Z ->
  (Z.to_nat (N_OBSTACLES g) <= length (OBSTACLES g))%nat ->
  (k < Z.to_nat (N_OBSTACLES g))%nat ->
  OBSTACLES (snd (collisions_loop g)) !!! k =
  set_is_player_attached (OBSTACLES g !!! k)
    ((vy (get_aabb_mtv (get_player_rect g) (rect (OBSTACLES g !!! k))) <? 0)
     && (0 <? o_speed (OBSTACLES g !!! k))).
Proof.
  intros HN0 HNlen Hk. unfold collisions_loop.
  set (F := fun o => set_is_player_attached o
    ((vy (get_aabb_mtv (get_player_rect g) (rect o)) <? 0) && (0 <? o_speed o))).
  change (OBSTACLES (snd (for_loop (N_OBSTACLES g) collisions_body
            (mkExtrema 0 0 0 0, g))) !!! k = F (OBSTACLES g !!! k)).
  pose (P := fun (i : Z) (s : Extrema * Game) =>
    PLAYER (snd s) = PLAYER g /\
    length (OBSTACLES (snd s)) = length (OBSTACLES g) /\
    forall j : nat,
      OBSTACLES (snd s) !!! j =
      if decide (j < Z.to_nat i)%nat then F (OBSTACLES g !!! j) else OBSTACLES g !!! j).
  assert (P (N_OBSTACLES g) (for_loop (N_OBSTACLES g) collisions_body
                                      (mkExtrema 0 0 0 0, g))) as (_ & _ & HP).
  { apply for_loop_ind; [exact HN0 | |].
    - split; [reflexivity |]. split; [reflexivity |].
      intros j. cbn [snd]. case_decide; [lia | reflexivity].
    - intros i [e s] Hi (HPl & HL & Hj).
      unfold P, collisions_body, set_obstacle_at, obstacle_at.
      cbn [snd PLAYER OBSTACLES set_OBSTACLES] in *.
      rewrite length_insert. split; [exact HPl |]. split; [exact HL |].
      intros j. rewrite list_lookup_total_insert, HL.
      assert (get_player_rect s = get_player_rect g) as ->
        by (unfold get_player_rect; now rewrite HPl).
      case_decide as Hd.
      + destruct Hd as [<- _]. rewrite Hj.
        repeat case_decide; try lia. reflexivity.
      + rewrite Hj. repeat case_decide; try lia; reflexivity. }
  rewrite HP. case_decide; [reflexivity | lia].
Qed.

End Reachable.

(** ** Attachment and health in the reachable states *)

Lemma rand_right_ok : rand_ok rand_right.
Proof.
  intros k. unfold rand_right. destruct (Nat.even k); vm_compute; split; discriminate.
Qed.

Lemma rand_left_ok : rand_ok rand_left.
Proof.
  intros k. unfold rand_left. destruct (Nat.even k); vm_compute; split; discriminate.
Qed.

Lemma frame_of_ok (c : Z * Z * bool) :
  (0 <=? fst (fst c))%Z = true -> Frame_ok (frame_of c).
Proof.
  destruct c as [[n k] w]. cbn [fst]. intros Hn. apply Z.leb_le in Hn.
  split; [| apply rand_left_ok].
  cbn [frame_of dt]. qc_to_q. unfold Qle. cbn. lia.
Qed.

Lemma frames_of_ok (cs : list (Z * Z * bool)) :
  forallb (fun c => (0 <=? fst (fst c))%Z) cs = true ->
  Forall Frame_ok (map frame_of cs).
Proof.
  intros H. apply Forall_map, Forall_forall. intros c Hc.
  apply frame_of_ok. rewrite forallb_forall in H. apply (H c).
  now apply list_elem_of_In.
Qed.

(** C4.  In a reachable state no static obstacle (speed 0) is flagged as
    carrying the player; and whatever the overlap, the resolver sets the
    flag of each obstacle to [mtv.y < 0 && speed > 0]. *)
Theorem static_never_attached (sqrtf : Qc -> Qc) (g : Game) (i : Z) :
  reachable sqrtf g -> (0 <= i < N_OBSTACLES g)%Z ->
  (o_speed (obstacle_at g i) = 0 -> is_player_attached (obstacle_at g i) = false) /\
  is_player_attached (obstacle_at (update_player_collisions sqrtf g) i) =
    (vy (get_aabb_mtv (get_player_rect g) (rect (obstacle_at g i))) <? 0)
    && (0 <? o_speed (obstacle_at g i)).
Proof.
  intros Hg Hi.
  destruct (reachable_inv sqrtf g Hg) as [(HN & HL & _ & Hatt) _].
  split; [apply Hatt |].
  destruct (update_player_collisions_frame sqrtf g) as (_ & HO & _).
  unfold obstacle_at. rewrite HO, collisions_loop_flag.
  - reflexivity.
  - lia.
  - rewrite HL, HN. vm_compute. lia.
  - lia.
Qed.

Lemma static_never_attached_witness :
  (o_speed (obstacle_at (load_game rand_right Game_init) 0) = 0 ->
   is_player_attached (obstacle_at (load_game rand_right Game_init) 0) = false) /\
  is_player_attached
    (obstacle_at (update_player_collisions Qcsqrt (load_game rand_right Game_init)) 0) =
  (vy (get_aabb_mtv (get_player_rect (load_game rand_right Game_init))
         (rect (obstacle_at (load_game rand_right Game_init) 0))) <? 0)
  && (0 <? o_speed (obstacle_at (load_game rand_right Game_init) 0)).
Proof.
  apply (static_never_attached Qcsqrt (load_game rand_right Game_init) 0).
  - apply reachable_load, rand_right_ok.
  - vm_compute. split; congruence.
Defined.

(** C5, as the code has it.  In every reachable state the health is at
    most [max_health], which is [PLAYER_MAX_HEALTH]; there is no lower
    bound, the landing damage being subtracted as it is. *)
Theorem health_at_most_max (sqrtf : Qc -> Qc) (g : Game) :
  reachable sqrtf g ->
  health (PLAYER g) <= max_health (PLAYER g) /\
  max_health (PLAYER g) = PLAYER_MAX_HEALTH.
Proof.
  intros Hg. destruct (reachable_inv sqrtf g Hg) as [_ [Hmax Hle]]. now split.
Qed.

Lemma health_at_most_max_witness :
  health (PLAYER (load_game rand_right Game_init))
    <= max_health (PLAYER (load_game rand_right Game_init)) /\
  max_health (PLAYER (load_game rand_right Game_init)) = PLAYER_MAX_HEALTH.
Proof.
  apply (health_at_most_max Qcsqrt (load_game rand_right Game_init)).
  apply reachable_load, rand_right_ok.
Defined.

(** The run of [two_falls], stage by stage: on the top platform after 37
    frames, on the ground with 39.375 left after 65, on the lowest platform
    again after 98 and on the sixth after 118. *)
Lemma two_falls_stages :
  vy (position (after_frames 37)) = fl (-68) /\
  is_grounded (after_frames 37) = true /\
  health (after_frames 37) = fl 100 /\
  vy (position (after_frames 65)) = fl 16 /\
  health (after_frames 65) = fl (315 # 8) /\
  vy (position (after_frames 98)) = fl 4 /\
  is_grounded (after_frames 98) = true /\
  vy (position (after_frames 118)) = fl (-36) /\
  health (after_frames 118) = fl (315 # 8).
Proof.
  split_conj; try apply Qc_is_canon; lazy; reflexivity.
Qed.

(** C5 as stated fails: two long falls leave the player with a health of
    -5/2 in a reachable state. *)
Lemma health_below_zero :
  reachable Qcsqrt (run Qcsqrt rand_right (map frame_of two_falls)) /\
  health (PLAYER (run Qcsqrt rand_right (map frame_of two_falls))) = fl (-5 # 2) /\
  ~ 0 <= health (PLAYER (run Qcsqrt rand_right (map frame_of two_falls))).
Proof.
  assert (health (PLAYER (run Qcsqrt rand_right (map frame_of two_falls)))
          = fl (-5 # 2)) as H.
  { apply Qc_is_canon. lazy. reflexivity. }
  split; [| split].
  - apply run_reachable; [apply rand_right_ok |].
    apply frames_of_ok. vm_compute. reflexivity.
  - exact H.
  - rewrite H. apply Qclt_not_le. reflexivity.
Qed.

(** ** Reset *)

(** Two loops in step. *)
Lemma for_loop_rel {S : Type} (R : Z -> S -> S -> Prop) (n : Z)
    (body1 body2 : Z -> S -> S) (s1 s2 : S) :
  (0 <= n)%Z ->
  R 0%Z s1 s2 ->
  (forall i a b, (0 <= i < n)%Z -> R i a b -> R (i + 1)%Z (body1 i a) (body2 i b)) ->
  R n (for_loop n body1 s1) (for_loop n body2 s2).
Proof.
  intros Hn Hs Hbody.
  rewrite <- (Z2Nat.id n) in * by lia.
  assert (Hle : (Z.to_nat n <= Z.to_nat n)%nat) by lia.
  revert Hle. generalize (Z.to_nat n) at 1 3 4 5 as m.
  induction m as [| m IH]; intros Hle.
  - exact Hs.
  - rewrite !for_loop_S, Nat2Z.inj_succ. apply Hbody; [lia | apply IH; lia].
Qed.

Lemma slots_agree_spawn (cmp : nat -> Obstacle -> Obstacle -> Prop) (n : Z)
    (r1 r2 : Rectangle) (s1 e1 s2 e2 : Vector2) (sp1 sp2 : Qc) (g1 g2 : Game) :
  (0 <= n < MAX_N_OBSTACLES)%Z ->
  (forall a1 b1 a2 b2,
     cmp (Z.to_nat n) (mkObstacle r1 s1 e1 sp1 a1 b1) (mkObstacle r2 s2 e2 sp2 a2 b2)) ->
  slots_agree cmp n g1 g2 ->
  slots_agree cmp (n + 1) (snd (spawn_obstacle r1 s1 e1 sp1 g1))
                          (snd (spawn_obstacle r2 s2 e2 sp2 g2)).
Proof.
  intros Hn Hnew (HN1 & HN2 & HL1 & HL2 & Hk).
  rewrite !spawn_obstacle_room by lia.
  unfold slots_agree. cbn [N_OBSTACLES OBSTACLES].
  rewrite !length_insert, HN1, HN2. repeat split; auto.
  intros k Hlt. rewrite !list_lookup_total_insert, HL1, HL2.
  unfold MAX_N_OBSTACLES in *.
  repeat case_decide; try lia.
  - replace k with (Z.to_nat n) by lia. apply Hnew.
  - apply Hk. lia.
Qed.

Lemma load_game_in_step (cmp : nat -> Obstacle -> Obstacle -> Prop)
    (rand1 rand2 : nat -> Z) (g1 g2 : Game) :
  length (OBSTACLES g1) = Z.to_nat MAX_N_OBSTACLES ->
  length (OBSTACLES g2) = Z.to_nat MAX_N_OBSTACLES ->
  (forall k r a1 b1 a2 b2,
     cmp k (mkObstacle r (mkVector2 (rx r) (ry r)) (mkVector2 (rx r) (ry r)) 0 a1 b1)
           (mkObstacle r (mkVector2 (rx r) (ry r)) (mkVector2 (rx r) (ry r)) 0 a2 b2)) ->
  (forall i a b, (0 <= i < 10)%Z ->
     slots_agree cmp (4 + i) a b ->
     slots_agree cmp (4 + i + 1) (load_game_platform rand1 i a)
                                 (load_game_platform rand2 i b)) ->
  slots_agree cmp 14 (load_game rand1 g1) (load_game rand2 g2).
Proof.
  intros HL1 HL2 Hstatic Hplatform. unfold load_game.
  apply (for_loop_rel (fun i a b => slots_agree cmp (4 + i) a b)); [lia | |].
  - unfold spawn_static_obstacle.
    apply (slots_agree_spawn cmp 3); [unfold MAX_N_OBSTACLES; lia | apply Hstatic |].
    apply (slots_agree_spawn cmp 2); [unfold MAX_N_OBSTACLES; lia | apply Hstatic |].
    apply (slots_agree_spawn cmp 1); [unfold MAX_N_OBSTACLES; lia | apply Hstatic |].
    apply (slots_agree_spawn cmp 0); [unfold MAX_N_OBSTACLES; lia | apply Hstatic |].
    repeat split; auto. intros k Hk. cbn in Hk. lia.
  - intros i a b Hi Hab.
    replace (4 + (i + 1))%Z with (4 + i + 1)%Z by lia. now apply Hplatform.
Qed.

(** Whatever the draws and the state it starts from, [load_game] spawns
    the same level up to the draws. *)
Lemma load_game_agree_but_draws (rand1 rand2 : nat -> Z) (g1 g2 : Game) :
  length (OBSTACLES g1) = Z.to_nat MAX_N_OBSTACLES ->
  length (OBSTACLES g2) = Z.to_nat MAX_N_OBSTACLES ->
  slots_agree same_config_but_draws 14 (load_game rand1 g1) (load_game rand2 g2).
Proof.
  intros HL1 HL2. apply load_game_in_step; auto.
  - intros. unfold same_config_but_draws. cbn. repeat split; reflexivity.
  - intros i a b Hi Hab. unfold load_game_platform.
    apply slots_agree_spawn; [unfold MAX_N_OBSTACLES; lia | | exact Hab].
    intros. unfold same_config_but_draws.
    cbn [start end_ rect rx ry width height o_speed].
    repeat split; try reflexivity; intros; exfalso; clear - Hi H; lia.
Qed.

(** With the same draws it spawns the same level. *)
Lemma load_game_agree (rand1 rand2 : nat -> Z) (g1 g2 : Game) :
  (forall k, rand1 k = rand2 k) ->
  length (OBSTACLES g1) = Z.to_nat MAX_N_OBSTACLES ->
  length (OBSTACLES g2) = Z.to_nat MAX_N_OBSTACLES ->
  slots_agree same_config 14 (load_game rand1 g1) (load_game rand2 g2).
Proof.
  intros Hrand HL1 HL2. apply load_game_in_step; auto.
  - intros. reflexivity.
  - intros i a b Hi Hab. unfold load_game_platform.
    apply slots_agree_spawn; [unfold MAX_N_OBSTACLES; lia | | exact Hab].
    intros. unfold same_config, spawn_config. cbn. now rewrite !Hrand.
Qed.

(** The draws of the platforms lie in their ranges. *)
Lemma load_game_drawn_in_range (rand : nat -> Z) (g : Game) (k : nat) :
  rand_ok rand ->
  length (OBSTACLES g) = Z.to_nat MAX_N_OBSTACLES ->
  (4 <= k < 14)%nat ->
  drawn_in_range (OBSTACLES (load_game rand g) !!! k).
Proof.
  intros Hrand HL Hk. unfold load_game.
  pose (P := fun (i : Z) (s : Game) =>
    N_OBSTACLES s = (4 + i)%Z /\
    length (OBSTACLES s) = Z.to_nat MAX_N_OBSTACLES /\
    forall j : nat, (4 <= j < Z.to_nat (4 + i))%nat -> drawn_in_range (OBSTACLES s !!! j)).
  match goal with
  | |- context [for_loop 10 ?body ?s] =>
      assert (P 10%Z (for_loop 10 body s)) as (_ & _ & H)
  end.
  { apply for_loop_ind; [lia | |].
    - unfold spawn_static_obstacle.
      split; [reflexivity |].
      split; [| intros j Hj; cbn in Hj; lia].
      do 4 rewrite (proj2 (proj2 (spawn_obstacle_frame _ _ _ _ _))).
      exact HL.
    - intros i s Hi (HN & HLs & Hj). unfold P, load_game_platform.
      rewrite spawn_obstacle_room by (rewrite HN; unfold MAX_N_OBSTACLES; lia).
      cbn [N_OBSTACLES OBSTACLES]. rewrite length_insert, HN.
      split; [lia |]. split; [exact HLs |].
      intros j Hlt. rewrite list_lookup_total_insert, HLs.
      change (Z.to_nat MAX_N_OBSTACLES) with 64%nat.
      case_decide; [| apply Hj; lia].
      unfold drawn_in_range. cbn [rect rx o_speed].
      destruct (randf_min_max_range (rand (2 * Z.to_nat i)%nat) (fl (-15)) (fl 5))
        as [? ?]; [apply Hrand | qc_lra |].
      destruct (randf_min_max_range (rand (2 * Z.to_nat i + 1)%nat) (fl 5) (fl 9))
        as [? ?]; [apply Hrand | qc_lra |].
      auto. }
  apply H. cbn. lia.
Qed.

(** C6, as the code has it.  From a reachable state, [load_game] restores
    the health to [max_health], the velocity and the position to zero and
    the count of the first load; the four static obstacles are those of the
    first load, and each platform has the height, the size and the patrol
    endpoints it had there, with an [x] and a speed drawn afresh in their
    ranges -- those of the first load when the draws are the same. *)
Theorem load_game_restores (sqrtf : Qc -> Qc) (rand0 rand : nat -> Z) (g : Game) :
  rand_ok rand -> reachable sqrtf g ->
  health (PLAYER (load_game rand g)) = max_health (PLAYER (load_game rand g)) /\
  velocity (PLAYER (load_game rand g)) = Vector2Zero /\
  position (PLAYER (load_game rand g)) = Vector2Zero /\
  N_OBSTACLES (load_game rand g) = N_OBSTACLES (load_game rand0 Game_init) /\
  (forall k : nat, (k < 14)%nat ->
     same_config_but_draws k (OBSTACLES (load_game rand g) !!! k)
                             (OBSTACLES (load_game rand0 Game_init) !!! k)) /\
  (forall k : nat, (4 <= k < 14)%nat ->
     drawn_in_range (OBSTACLES (load_game rand g) !!! k)) /\
  ((forall j, rand j = rand0 j) ->
   forall k : nat, (k < 14)%nat ->
     same_config k (OBSTACLES (load_game rand g) !!! k)
                   (OBSTACLES (load_game rand0 Game_init) !!! k)).
Proof.
  intros Hrand Hg.
  destruct (reachable_bounds sqrtf g Hg) as [_ HL].
  assert (length (OBSTACLES Game_init) = Z.to_nat MAX_N_OBSTACLES) as HL0
    by reflexivity.
  do 4 (split; [reflexivity |]). split; [| split].
  - intros k Hk.
    destruct (load_game_agree_but_draws rand rand0 g Game_init HL HL0)
      as (_ & _ & _ & _ & H).
    apply H. cbn. lia.
  - intros k Hk. now apply load_game_drawn_in_range.
  - intros Hsame k Hk.
    destruct (load_game_agree rand rand0 g Game_init Hsame HL HL0)
      as (_ & _ & _ & _ & H).
    apply H. cbn. lia.
Qed.

Lemma load_game_restores_witness :
  health (PLAYER (load_game rand_left landed_on_platform))
    = max_health (PLAYER (load_game rand_left landed_on_platform)) /\
  velocity (PLAYER (load_game rand_left landed_on_platform)) = Vector2Zero /\
  position (PLAYER (load_game rand_left landed_on_platform)) = Vector2Zero /\
  N_OBSTACLES (load_game rand_left landed_on_platform)
    = N_OBSTACLES (load_game rand_right Game_init) /\
  (forall k : nat, (k < 14)%nat ->
     same_config_but_draws k
       (OBSTACLES (load_game rand_left landed_on_platform) !!! k)
       (OBSTACLES (load_game rand_right Game_init) !!! k)) /\
  (forall k : nat, (4 <= k < 14)%nat ->
     drawn_in_range (OBSTACLES (load_game rand_left landed_on_platform) !!! k)) /\
  ((forall j, rand_left j = rand_right j) ->
   forall k : nat, (k < 14)%nat ->
     same_config k (OBSTACLES (load_game rand_left landed_on_platform) !!! k)
                   (OBSTACLES (load_game rand_right Game_init) !!! k)).
Proof.
  apply (load_game_restores Qcsqrt rand_right rand_left landed_on_platform).
  - apply rand_left_ok.
  - apply run_reachable; [apply rand_right_ok |].
    apply frames_of_ok. reflexivity.
Defined.

(** C6 as stated fails: a reset taken while the player stands on a
    platform leaves [is_grounded] set, and it draws the platforms anew:
    here the fifth obstacle is spawned at x = -15 with speed 9, where the
    first load had it at x = 5 with speed 5. *)
Lemma reset_not_initial :
  reachable Qcsqrt landed_on_platform /\
  is_grounded (PLAYER (load_game rand_left landed_on_platform)) = true /\
  rx (rect (obstacle_at (load_game rand_left landed_on_platform) 4)) = fl (-15) /\
  rx (rect (obstacle_at (load_game rand_right Game_init) 4)) = fl 5 /\
  o_speed (obstacle_at (load_game rand_left landed_on_platform) 4) = fl 9 /\
  o_speed (obstacle_at (load_game rand_right Game_init) 4) = fl 5.
Proof.
  split.
  { apply run_reachable; [apply rand_right_ok |].
    apply frames_of_ok. reflexivity. }
  split; [lazy; reflexivity |].
  split_conj; apply Qc_is_canon; lazy; reflexivity.
Qed.

(** ** Hard landing *)




(** The landing of [landing_at_40], evaluated: the impact speed is 40 and
    the health goes from 100 to 90. *)
Lemma hard_landing_at_40 :
  Vector2Length Qcsqrt (velocity (PLAYER landing_at_40)) = fl 40 /\
  health (PLAYER (update_player_collisions Qcsqrt landing_at_40)) = fl 90.
Proof. split; apply Qc_is_canon; vm_compute; reflexivity. Qed.

(** ** Patrol of a platform *)

Section Patrol.

Variable sqrtf : Qc -> Qc.

Lemma Qsquares_nonneg (a b : Q) : (0 <= a * a + b * b)%Q.
Proof. nra. Qed.

Lemma Qc_inv_pos (a : Qc) : 0 < a -> 0 < 1 / a.
Proof.
  intros Ha. qc_to_q. unfold Qdiv. rewrite Qmult_1_l.
  now apply Qinv_lt_0_compat.
Qed.


(** The direction of travel is a non-negative multiple [k] of the segment,
    towards the target; [k] is [1/length] when [sqrtf] finds the segment to
    have a positive length, and zero otherwise. *)
Lemma platform_direction_scale (o : Obstacle) :
  let length := Vector2Length sqrtf (Vector2Subtract (end_ o) (start o)) in
  exists k : Qc,
    0 <= k /\
    (0 < length -> k = 1 / length) /\
    platform_direction sqrtf o =
    if is_moving_to_start o
    then mkVector2 (- ((vx (end_ o) - vx (start o)) * k))
                   (- ((vy (end_ o) - vy (start o)) * k))
    else mkVector2 ((vx (end_ o) - vx (start o)) * k)
                   ((vy (end_ o) - vy (start o)) * k).
Proof.
  unfold platform_direction, Vector2Normalize, Vector2Length, Vector2Subtract.
  cbn [vx vy].
  set (len := sqrtf _).
  destruct (0 <? len) eqn:Hlen.
  - apply Qcltb_true in Hlen. exists (1 / len).
    split; [apply Qclt_le_weak, Qc_inv_pos, Hlen |].
    split; [reflexivity |].
    destruct (is_moving_to_start o); reflexivity.
  - apply Qcltb_false in Hlen.
    exists 0. split; [apply Qcle_refl |].
    split; [intros Hpos; now apply Qcle_not_lt in Hlen |].
    destruct (is_moving_to_start o); unfold Vector2Negate; cbn [vx vy];
      f_equal; ring.
Qed.

(** One step keeps a platform on its patrol segment. *)
Lemma move_platform_on_patrol (dt : Qc) (o : Obstacle) :
  0 <= dt -> 0 < o_speed o -> on_patrol o -> on_patrol (move_platform sqrtf dt o).
Proof.
  intros Hdt Hsp (t & Ht0 & Ht1 & Hx & Hy).
  destruct (platform_direction_scale o) as (k & Hk & _ & Hdir).
  unfold move_platform, platform_step. rewrite Hdir. clear Hdir.
  unfold obstacle_position in Hx, Hy. cbn [vx vy] in Hx, Hy.
  unfold on_patrol, on_segment, obstacle_position.
  set (c := dt * o_speed o).
  assert (0 <= c) as Hc by (subst c; qc_nra).
  clearbody c.
  unfold Vector2Scale, Vector2DotProduct, Vector2Subtract.
  cbn [vx vy rect start end_ is_moving_to_start set_rect set_rx set_ry rx ry].
  destruct (is_moving_to_start o) eqn:Hm;
    cbn [vx vy];
    match goal with |- context [0 <? ?d] => destruct (0 <? d) eqn:Hdot end;
    cbn [negb set_is_moving_to_start set_rect rect start end_ rx ry set_rx set_ry vx vy].
  - (* towards [start], not there yet *)
    apply Qcltb_true in Hdot. exists (t - k * c).
    rewrite Hx, Hy in Hdot |- *.
    assert (0 <= t - k * c) as Hlo.
    { qc_to_q.
      set (T := this t) in *. set (K := this k) in *. set (C := this c) in *.
      set (D := ((this (vx (end_ o)) - this (vx (start o)))
                 * (this (vx (end_ o)) - this (vx (start o)))
                 + (this (vy (end_ o)) - this (vy (start o)))
                   * (this (vy (end_ o)) - this (vy (start o))))%Q).
      assert (0 <= D)%Q as HD by apply Qsquares_nonneg.
      assert (0 < K * D * (T - K * C))%Q as Hpos by (subst D; lra).
      clearbody D. clear Hdot Hx Hy.
      assert (0 <= K * D)%Q as HKD by nra. nra. }
    split; [exact Hlo |]. split; [qc_nra |]. split; ring.
  - (* towards [start], reached *)
    exists 0. split; [apply Qcle_refl |]. split; [qc_lra |]. split; ring.
  - (* towards [end], not there yet *)
    apply Qcltb_true in Hdot. exists (t + k * c).
    rewrite Hx, Hy in Hdot |- *.
    assert (t + k * c <= 1) as Hhi.
    { qc_to_q.
      set (T := this t) in *. set (K := this k) in *. set (C := this c) in *.
      set (D := ((this (vx (end_ o)) - this (vx (start o)))
                 * (this (vx (end_ o)) - this (vx (start o)))
                 + (this (vy (end_ o)) - this (vy (start o)))
                   * (this (vy (end_ o)) - this (vy (start o))))%Q).
      assert (0 <= D)%Q as HD by apply Qsquares_nonneg.
      assert (0 < K * D * (1 - (T + K * C)))%Q as Hpos by (subst D; lra).
      clearbody D. clear Hdot Hx Hy.
      assert (0 <= K * D)%Q as HKD by nra. nra. }
    split; [qc_nra |]. split; [exact Hhi |]. split; ring.
  - (* towards [end], reached *)
    exists 1. split; [qc_lra |]. split; [apply Qcle_refl |]. split; ring.
Qed.


(** What [update_obstacles] leaves in each slot below the count. *)
Lemma update_obstacles_at (f : Frame) (g : Game) (k : nat) :
  (0 <= N_OBSTACLES g)%Z ->
  (Z.to_nat (N_OBSTACLES g) <= length (OBSTACLES g))%nat ->
  (k < Z.to_nat (N_OBSTACLES g))%nat ->
  OBSTACLES (update_obstacles sqrtf f g) !!! k =
  if 0 <? o_speed (OBSTACLES g !!! k)
  then move_platform sqrtf (dt f) (OBSTACLES g !!! k)
  else OBSTACLES g !!! k.
Proof.
  intros HN0 HNlen Hk. unfold update_obstacles.
  set (F := fun o => if 0 <? o_speed o then move_platform sqrtf (dt f) o else o).
  change (OBSTACLES (for_loop (N_OBSTACLES g) (update_obstacles_body sqrtf (dt f)) g)
            !!! k = F (OBSTACLES g !!! k)).
  pose (P := fun (i : Z) (s : Game) =>
    length (OBSTACLES s) = length (OBSTACLES g) /\
    forall j : nat,
      OBSTACLES s !!! j =
      if decide (j < Z.to_nat i)%nat then F (OBSTACLES g !!! j) else OBSTACLES g !!! j).
  assert (P (N_OBSTACLES g)
            (for_loop (N_OBSTACLES g) (update_obstacles_body sqrtf (dt f)) g))
    as (_ & HP).
  { apply for_loop_ind; [exact HN0 | |].
    - split; [reflexivity |]. intros j. case_decide; [lia | reflexivity].
    - intros i s Hi (HL & Hj).
      assert (OBSTACLES (update_obstacles_body sqrtf (dt f) i s)
              = <[Z.to_nat i := F (OBSTACLES s !!! Z.to_nat i)]> (OBSTACLES s)) as Hbody.
      { unfold update_obstacles_body, obstacle_at, F.
        destruct (0 <? o_speed _); cbn [negb].
        - unfold set_obstacle_at. now destruct (is_player_attached _).
        - now rewrite list_insert_total_id. }
      unfold P. rewrite Hbody, length_insert. split; [exact HL |].
      intros j. rewrite list_lookup_total_insert, HL, !Hj.
      repeat case_decide; try lia; try reflexivity.
      all: destruct_and?; subst; try lia; reflexivity. }
  rewrite HP. case_decide; [reflexivity | lia].
Qed.

End Patrol.

(** In every reachable state every obstacle is on its patrol segment: a
    static one stands on the single point [start = end], a platform is
    spawned between its endpoints and kept there by each tick. *)
Lemma load_game_on_patrol (rand : nat -> Z) (g : Game) (k : nat) :
  rand_ok rand ->
  on_patrol (OBSTACLES g !!! k) -> on_patrol (OBSTACLES (load_game rand g) !!! k).
Proof.
  intros Hrand Hk. unfold load_game.
  apply (for_loop_inv (fun s => on_patrol (OBSTACLES s !!! k))).
  - intros i s _ Hs. unfold load_game_platform.
    apply (spawn_obstacle_slot on_patrol); [exact Hs |]. intros _ _.
    exists (randf (rand (2 * Z.to_nat i)%nat)).
    destruct (randf_range (rand (2 * Z.to_nat i)%nat) (Hrand _)) as [H0 H1].
    unfold obstacle_position, randf_min_max. cbn [rect start end_ rx ry vx vy].
    split; [exact H0 |]. split; [exact H1 |]. split; ring.
  - unfold spawn_static_obstacle.
    do 4 (apply (spawn_obstacle_slot on_patrol);
          [| intros _ _; exists 0; unfold obstacle_position;
             cbn [rect start end_ rx ry vx vy];
             split; [apply Qcle_refl |]; split; [qc_lra |]; split; ring]).
    exact Hk.
Qed.

Lemma reachable_on_patrol (sqrtf : Qc -> Qc) (g : Game) (k : nat) :
  reachable sqrtf g -> on_patrol (OBSTACLES g !!! k).
Proof.
  induction 1 as [rand0 Hrand | f g Hg IH [Hdt Hrand]].
  - apply load_game_on_patrol; [exact Hrand |].
    assert (OBSTACLES Game_init !!! k = Obstacle_zero) as ->.
    { unfold Game_init. cbn [OBSTACLES].
      destruct (decide (k < Z.to_nat MAX_N_OBSTACLES)%nat) as [Hk | Hk].
      - now rewrite lookup_total_replicate_2.
      - rewrite list_lookup_total_alt, (proj1 (lookup_replicate_None _ _ _)) by lia.
        reflexivity. }
    exists 0. cbn. split; [apply Qcle_refl |]. split; [qc_lra |]. split; ring.
  - unfold update. cbn [update_camera OBSTACLES set_CAMERA].
    destruct (update_player_collisions_frame sqrtf
                (update_obstacles sqrtf f (update_player sqrtf f (update_reset f g))))
      as (_ & -> & _).
    apply collisions_loop_slot; [intros o b Ho; exact Ho |].
    apply update_obstacles_slot;
      [intros o Ho Hs; now apply move_platform_on_patrol |].
    destruct (update_player_frame sqrtf f (update_reset f g)) as (_ & -> & _).
    unfold update_reset. destruct (key_R f); [| exact IH].
    now apply load_game_on_patrol.
Qed.



(** The lowest platform over such ticks, evaluated: spawned on its right end, it
    is turned around there by the first tick; the third tick, long enough
    to carry it far past the left end, leaves it at x = -15. *)
Lemma patrol_three_ticks :
  obstacle_position
    (obstacle_at
       (obstacle_ticks Qcsqrt [no_input (fl 1)] (load_game rand_right Game_init)) 4)
    = mkVector2 (fl 5) (fl 8) /\
  is_moving_to_start
    (obstacle_at
       (obstacle_ticks Qcsqrt [no_input (fl 1)] (load_game rand_right Game_init)) 4)
    = true /\
  rx (rect
    (obstacle_at
       (obstacle_ticks Qcsqrt [no_input (fl 1); no_input (fl (1 # 3)); no_input (fl 7)]
                       (load_game rand_right Game_init)) 4))
    = fl (-15).
Proof.
  split; [| split].
  - unfold obstacle_position. f_equal; apply Qc_is_canon; vm_compute; reflexivity.
  - vm_compute. reflexivity.
  - apply Qc_is_canon. vm_compute. reflexivity.
Qed.

(** ** Free fall *)

Section FreeFall.

Variable sqrtf : Qc -> Qc.

Lemma Vector2Normalize_zero : Vector2Normalize sqrtf Vector2Zero = Vector2Zero.
Proof.
  unfold Vector2Normalize, Vector2Zero. cbn [vx vy].
  destruct (0 <? _); [| reflexivity]. f_equal; ring.
Qed.




End FreeFall.




(** * Further properties of [main.c] *)

(** ** utils: [randf_min_max] and [lerp_color] *)







(** Truncation of a non-negative value is its floor: it stays between
    two integers that enclose the value. *)
Lemma to_uchar_between (q : Qc) (lo hi : Z) :
  (0 <= lo)%Z -> (hi <= 255)%Z ->
  (inject_Z lo <= this q)%Q -> (this q <= inject_Z hi)%Q ->
  exists z, to_uchar q = Some z /\ (lo <= z <= hi)%Z.
Proof.
  intros Hlo Hhi Hq0 Hq1. unfold to_uchar.
  set (n := Qnum q). set (d := Z.pos (Qden q)).
  assert (0 <= inject_Z lo)%Q as Hlo' by (rewrite <- (Zle_Qle 0); exact Hlo).
  assert (0 <= n)%Z as Hn.
  { assert (0 <= this q)%Q as H by lra. unfold Qle in H. cbn in H. subst n. lia. }
  assert (n ÷ d = Qfloor q)%Z as Hfloor.
  { unfold Qfloor. destruct (this q) as [qn qd] eqn:Hqd.
    subst n d. cbn [Qnum Qden]. cbn [Qnum] in Hn. apply Z.quot_div_nonneg; lia. }
  rewrite Hfloor.
  assert (lo <= Qfloor q)%Z as H1.
  { assert (inject_Z lo < inject_Z (Qfloor q + 1))%Q as H
      by (eapply Qle_lt_trans; [exact Hq0 | apply Qlt_floor]).
    rewrite <- Zlt_Qlt in H. lia. }
  assert (Qfloor q <= hi)%Z as H2.
  { assert (inject_Z (Qfloor q) <= inject_Z hi)%Q as H
      by (eapply Qle_trans; [apply Qfloor_le | exact Hq1]).
    rewrite <- Zle_Qle in H. exact H. }
  exists (Qfloor q). split; [| lia].
  replace ((0 <=? Qfloor q) && (Qfloor q <=? 255))%Z with true; [reflexivity |].
  symmetry. apply andb_true_iff. split; apply Z.leb_le; lia.
Qed.

Lemma lerp_channel_between (x y : Z) (ratio : Qc) :
  (0 <= x <= 255)%Z -> (0 <= y <= 255)%Z -> 0 <= ratio -> ratio <= 1 ->
  exists z, lerp_channel x y ratio = Some z /\ Zbetween x y z.
Proof.
  intros Hx Hy H0 H1. unfold lerp_channel, Zbetween.
  apply to_uchar_between; try lia.
  - qc_to_q.
    assert (inject_Z (Z.min x y) <= inject_Z x)%Q by (rewrite <- Zle_Qle; lia).
    assert (inject_Z (Z.min x y) <= inject_Z y)%Q by (rewrite <- Zle_Qle; lia).
    nra.
  - qc_to_q.
    assert (inject_Z x <= inject_Z (Z.max x y))%Q by (rewrite <- Zle_Qle; lia).
    assert (inject_Z y <= inject_Z (Z.max x y))%Q by (rewrite <- Zle_Qle; lia).
    nra.
Qed.



Lemma lerp_color_some (c1 c2 : Color) (ratio : Qc) :
  Color_ok c1 -> Color_ok c2 -> 0 <= ratio -> ratio <= 1 ->
  exists c, lerp_color c1 c2 ratio = Some c /\
    Zbetween (chan_r c1) (chan_r c2) (chan_r c) /\
    Zbetween (chan_g c1) (chan_g c2) (chan_g c) /\
    Zbetween (chan_b c1) (chan_b c2) (chan_b c) /\
    Zbetween (chan_a c1) (chan_a c2) (chan_a c).
Proof.
  intros (Hr1 & Hg1 & Hb1 & Ha1) (Hr2 & Hg2 & Hb2 & Ha2) H0 H1.
  destruct (lerp_channel_between _ _ ratio Hr1 Hr2 H0 H1) as (zr & Er & Br).
  destruct (lerp_channel_between _ _ ratio Hg1 Hg2 H0 H1) as (zg & Eg & Bg).
  destruct (lerp_channel_between _ _ ratio Hb1 Hb2 H0 H1) as (zb & Eb & Bb).
  destruct (lerp_channel_between _ _ ratio Ha1 Ha2 H0 H1) as (za & Ea & Ba).
  exists (mkColor zr zg zb za). unfold lerp_color. rewrite Er, Eg, Eb, Ea.
  exact (conj eq_refl (conj Br (conj Bg (conj Bb Ba)))).
Qed.



(** Outside [[0, 1]] the conversion can be undefined: a ratio of -1/2, as
    a health of -50 gives, asks for a red channel of 345. *)
Lemma lerp_color_out_of_range : lerp_color RED GREEN (fl (-1 # 2)) = None.
Proof. reflexivity. Qed.

(** ** [draw_ui]: the health bar *)

Lemma draw_ui_view (dt : Qc) (p : Player) (v : Qc) :
  fst (draw_ui dt p v) =
  if health p <? v then
    if v - dt * fl 80 <? health p then health p else v - dt * fl 80
  else health p.
Proof. reflexivity. Qed.

Lemma draw_ui_view_ge (dt : Qc) (p : Player) (v : Qc) :
  health p <= fst (draw_ui dt p v).
Proof.
  rewrite draw_ui_view. cases_ltb; qc_lra.
Qed.





(** X5.  For a positive maximal health the two bars of [draw_ui] share
    their origin and height and the trailing bar is at least as wide as
    the health bar; for a health in [[0, max_health]] the health bar fits
    its 290-wide frame and its colour is defined. *)
Theorem draw_ui_bars (dt : Qc) (p : Player) (v : Qc) :
  0 < max_health p ->
  let bar := snd (draw_ui dt p v) in
  rx (difference_rect bar) = rx (healthbar_rect bar) /\
  ry (difference_rect bar) = ry (healthbar_rect bar) /\
  height (difference_rect bar) = height (healthbar_rect bar) /\
  width (healthbar_rect bar) <= width (difference_rect bar) /\
  (0 <= health p -> health p <= max_health p ->
   0 <= width (healthbar_rect bar) /\ width (healthbar_rect bar) <= fl 290 /\
   exists c, healthbar_color bar = Some c).
Proof.
  intros Hmax. cbv zeta.
  assert (0 < / max_health p) as Hinv
    by (revert Hmax; qc_to_q; apply Qinv_lt_0_compat).
  assert (max_health p * / max_health p = 1) as Hone.
  { apply Qcmult_inv_r. intros E. rewrite E in Hmax. discriminate. }
  pose proof (draw_ui_view_ge dt p v) as Hview.
  set (v' := fst (draw_ui dt p v)) in *.
  change (width (difference_rect (snd (draw_ui dt p v))))
    with ((fl 300 - fl 2 * fl 5) * (v' / max_health p)).
  change (width (healthbar_rect (snd (draw_ui dt p v))))
    with ((fl 300 - fl 2 * fl 5) * (health p / max_health p)).
  change (healthbar_color (snd (draw_ui dt p v)))
    with (lerp_color RED GREEN (health p / max_health p)).
  unfold Qcdiv. set (im := / max_health p) in *.
  split; [reflexivity |]. split; [reflexivity |]. split; [reflexivity |].
  assert (fl 300 - fl 2 * fl 5 = fl 290) as E290 by (apply Qc_is_canon; reflexivity).
  rewrite E290. split.
  - assert (health p * im <= v' * im) as H
      by (apply Qcmult_le_compat_r; [exact Hview | apply Qclt_le_weak; exact Hinv]).
    qc_lra.
  - intros H0 H1.
    assert (0 <= health p * im) as Hr0.
    { replace 0 with (0 * im) by ring. apply Qcmult_le_compat_r;
        [exact H0 | apply Qclt_le_weak; exact Hinv]. }
    assert (health p * im <= 1) as Hr1.
    { rewrite <- Hone. apply Qcmult_le_compat_r;
        [exact H1 | apply Qclt_le_weak; exact Hinv]. }
    split; [qc_lra |]. split; [qc_lra |].
    assert (Color_ok RED) as HR by (vm_compute; intuition discriminate).
    assert (Color_ok GREEN) as HG by (vm_compute; intuition discriminate).
    destruct (lerp_color_some RED GREEN (health p * im) HR HG Hr0 Hr1)
      as (c & Ec & _).
    exists c. exact Ec.
Qed.

Lemma draw_ui_bars_witness :
  let bar := snd (draw_ui (fl (1 # 16)) (set_health (PLAYER (load_game rand_right Game_init)) (fl 60))
                    health_view_init) in
  rx (difference_rect bar) = rx (healthbar_rect bar) /\
  ry (difference_rect bar) = ry (healthbar_rect bar) /\
  height (difference_rect bar) = height (healthbar_rect bar) /\
  width (healthbar_rect bar) <= width (difference_rect bar) /\
  (0 <= fl 60 -> fl 60 <= PLAYER_MAX_HEALTH ->
   0 <= width (healthbar_rect bar) /\ width (healthbar_rect bar) <= fl 290 /\
   exists c, healthbar_color bar = Some c).
Proof.
  apply (draw_ui_bars (fl (1 # 16)) (set_health (PLAYER (load_game rand_right Game_init)) (fl 60))
           health_view_init).
  vm_compute. reflexivity.
Defined.

(** ** [update_obstacles]: what it skips and how it carries the player *)

Section Obstacles.

Variable sqrtf : Qc -> Qc.

Lemma update_obstacles_body_slot_ne (d : Qc) (i : Z) (s : Game) (j : nat) :
  j <> Z.to_nat i ->
  OBSTACLES (update_obstacles_body sqrtf d i s) !!! j = OBSTACLES s !!! j.
Proof.
  intros Hj. unfold update_obstacles_body, set_obstacle_at.
  destruct (negb _); [reflexivity |].
  destruct (is_player_attached _); cbn [OBSTACLES set_OBSTACLES set_PLAYER];
    apply list_lookup_total_insert_ne; congruence.
Qed.




Lemma update_obstacles_skips (f : Frame) (g : Game) (i : Z) :
  ~ 0 < o_speed (obstacle_at g i) \/ (N_OBSTACLES g <= i)%Z ->
  obstacle_at (update_obstacles sqrtf f g) i = obstacle_at g i.
Proof.
  unfold obstacle_at. intros [Hstatic | Hout].
  - apply (update_obstacles_slot sqrtf (fun o => o = OBSTACLES g !!! Z.to_nat i));
      [| reflexivity].
    intros o -> Hsp. contradiction.
  - unfold update_obstacles.
    apply (for_loop_inv
             (fun s => OBSTACLES s !!! Z.to_nat i = OBSTACLES g !!! Z.to_nat i));
      [| reflexivity].
    intros j s Hj Hs. rewrite update_obstacles_body_slot_ne by lia. exact Hs.
Qed.

End Obstacles.

(** X6.  [update_obstacles] never changes an obstacle whose speed is not
    positive, nor a slot at or above the count: after any number of
    obstacle ticks such a slot holds what it held, rectangle and flags
    included. *)
Theorem static_obstacle_stays (sqrtf : Qc -> Qc) (frames : list Frame) (g : Game) (i : Z) :
  ~ 0 < o_speed (obstacle_at g i) \/ (N_OBSTACLES g <= i)%Z ->
  obstacle_at (obstacle_ticks sqrtf frames g) i = obstacle_at g i.
Proof.
  unfold obstacle_ticks. revert g.
  induction frames as [| f frames IH]; intros g Hi; [reflexivity |].
  cbn [fold_left].
  pose proof (update_obstacles_skips sqrtf f g i Hi) as Hstep.
  destruct (update_obstacles_frame sqrtf f g) as [(HN & _) _].
  rewrite IH; [exact Hstep |].
  rewrite Hstep, HN. exact Hi.
Qed.

Lemma static_obstacle_stays_witness :
  obstacle_at
    (obstacle_ticks Qcsqrt [no_input (fl 1); no_input (fl (1 # 3))]
       (load_game rand_right Game_init)) 2 =
  obstacle_at (load_game rand_right Game_init) 2.
Proof.
  apply (static_obstacle_stays Qcsqrt [no_input (fl 1); no_input (fl (1 # 3))]
           (load_game rand_right Game_init) 2).
  left. vm_compute. discriminate.
Defined.



(** The platform of that state does carry the player. *)
Lemma landed_on_platform_carried :
  carries (obstacle_at landed_on_platform 4) = true.
Proof. vm_compute. reflexivity. Qed.

(** ** [update_player_collisions]: in the air, and against one obstacle *)

Lemma get_aabb_mtv_apart (r1 r2 : Rectangle) :
  CheckCollisionRecs r1 r2 = false -> get_aabb_mtv r1 r2 = Vector2Zero.
Proof. intros H. unfold get_aabb_mtv. now rewrite H. Qed.



Lemma Vector2Add_zero (v : Vector2) : Vector2Add v Vector2Zero = v.
Proof.
  destruct v as [x y]. unfold Vector2Add, Vector2Zero. cbn [vx vy].
  f_equal; ring.
Qed.

Section Collisions.

Variable sqrtf : Qc -> Qc.


(** Each iteration meets the player and the rectangles as they were before
    the loop: the extrema after the loop are the running minima and maxima
    of the obstacles' vectors in index order. *)
Lemma collisions_loop_extrema_ind (Q : Z -> Extrema -> Prop) (g : Game) :
  (0 <= N_OBSTACLES g)%Z ->
  Q 0%Z (mkExtrema 0 0 0 0) ->
  (forall i e, (0 <= i < N_OBSTACLES g)%Z -> Q i e ->
     let mtv := get_aabb_mtv (get_player_rect g) (rect (obstacle_at g i)) in
     Q (i + 1)%Z
       (mkExtrema (fminf (mtv_min_x e) (vx mtv)) (fmaxf (mtv_max_x e) (vx mtv))
                  (fminf (mtv_min_y e) (vy mtv)) (fmaxf (mtv_max_y e) (vy mtv)))) ->
  Q (N_OBSTACLES g) (fst (collisions_loop g)).
Proof.
  intros HN H0 Hstep. unfold collisions_loop.
  pose (P := fun (i : Z) (s : Extrema * Game) =>
    PLAYER (snd s) = PLAYER g /\
    (forall j : nat, rect (OBSTACLES (snd s) !!! j) = rect (OBSTACLES g !!! j)) /\
    Q i (fst s)).
  assert (P (N_OBSTACLES g)
            (for_loop (N_OBSTACLES g) collisions_body (mkExtrema 0 0 0 0, g)))
    as (_ & _ & H); [| exact H].
  apply for_loop_ind; [exact HN | split; [reflexivity |]; split; [reflexivity | exact H0] |].
  intros i [e s] Hi (HP & Hrect & HQ). cbn [fst snd] in *.
  unfold P, collisions_body, set_obstacle_at, obstacle_at.
  cbn [fst snd PLAYER OBSTACLES set_OBSTACLES].
  split; [exact HP |]. split.
  - intros j.
    apply (slot_insert (fun o => rect o = rect (OBSTACLES g !!! j)));
      [apply Hrect | intros H; exact H].
  - assert (get_player_rect s = get_player_rect g) as ->
      by (unfold get_player_rect; now rewrite HP).
    rewrite Hrect. now apply Hstep.
Qed.


Lemma collision_mtv_none (g : Game) :
  no_overlap g -> collision_mtv g = Vector2Zero.
Proof.
  intros Hno. unfold collision_mtv.
  destruct (Z.lt_ge_cases (N_OBSTACLES g) 0) as [Hneg | HN].
  { unfold collisions_loop. rewrite for_loop_neg by lia. reflexivity. }
  assert (fst (collisions_loop g) = mkExtrema 0 0 0 0) as ->; [| reflexivity].
  apply (collisions_loop_extrema_ind (fun _ e => e = mkExtrema 0 0 0 0));
    [exact HN | reflexivity |].
  intros j e Hj ->. cbv zeta. rewrite (get_aabb_mtv_apart _ _ (Hno j Hj)).
  reflexivity.
Qed.

(** The player after the resolver, from the combined correction. *)
Lemma update_player_collisions_player (g : Game) :
  PLAYER (update_player_collisions sqrtf g) =
  let mtv := collision_mtv g in
  let p := set_position (PLAYER g) (Vector2Add (position (PLAYER g)) mtv) in
  if (vy mtv <? 0) && (0 <? vy (velocity p)) then
    let damage := Vector2Length sqrtf (velocity p) - MAX_SPEED_WITHOUT_DAMAGE in
    let damage := if damage <? 0 then 0 else damage in
    set_is_grounded (set_velocity (set_health p (health p - damage)) Vector2Zero) true
  else if (0 <? vy mtv) && (vy (velocity p) <? 0) then
    set_velocity p (set_vy (velocity p) 0)
  else set_is_grounded p false.
Proof.
  unfold update_player_collisions, collision_mtv.
  destruct (collisions_loop_frame g) as [_ HP].
  destruct (collisions_loop g) as [e g1]. cbn [fst snd] in *.
  cbv zeta. cbn [PLAYER set_PLAYER]. rewrite HP. reflexivity.
Qed.


End Collisions.

(** X8.  A player whose rectangle overlaps no obstacle below the count
    comes out of [update_player_collisions] where and as they were, except
    that [is_grounded] is cleared; no obstacle is left attached to them,
    and the jump key of the next [update_player] does nothing. *)
Theorem airborne_player_untouched (sqrtf : Qc -> Qc) (g : Game) :
  Game_wf g -> no_overlap g ->
  let g' := update_player_collisions sqrtf g in
  PLAYER g' = set_is_grounded (PLAYER g) false /\
  (forall i, (0 <= i < N_OBSTACLES g)%Z ->
     is_player_attached (obstacle_at g' i) = false) /\
  forall f, update_player sqrtf (with_key_W f true) g' =
            update_player sqrtf (with_key_W f false) g'.
Proof.
  intros [[HN0 HN1] HL] Hno. cbv zeta.
  assert (PLAYER (update_player_collisions sqrtf g) = set_is_grounded (PLAYER g) false)
    as HP.
  { rewrite update_player_collisions_player, (collision_mtv_none g Hno).
    cbv zeta. rewrite Vector2Add_zero.
    change (vy Vector2Zero <? 0) with false. change (0 <? vy Vector2Zero) with false.
    cbn [andb]. now destruct (PLAYER g). }
  split; [exact HP |]. split.
  - intros i Hi. unfold obstacle_at.
    destruct (update_player_collisions_frame sqrtf g) as (_ & -> & _).
    rewrite collisions_loop_flag
      by (rewrite ?HL; unfold MAX_N_OBSTACLES in *; lia).
    specialize (Hno i Hi). unfold obstacle_at in Hno.
    rewrite (get_aabb_mtv_apart _ _ Hno). reflexivity.
  - intros f. unfold update_player. rewrite HP.
    cbn [with_key_W key_W key_A key_D dt is_grounded set_is_grounded set_velocity].
    rewrite !andb_false_r. reflexivity.
Qed.

Lemma above_ground_N : N_OBSTACLES above_ground = 14%Z.
Proof. reflexivity. Qed.

Lemma airborne_player_untouched_witness :
  let g' := update_player_collisions Qcsqrt above_ground in
  PLAYER g' = set_is_grounded (PLAYER above_ground) false /\
  (forall i, (0 <= i < N_OBSTACLES above_ground)%Z ->
     is_player_attached (obstacle_at g' i) = false) /\
  forall f, update_player Qcsqrt (with_key_W f true) g' =
            update_player Qcsqrt (with_key_W f false) g'.
Proof.
  apply (airborne_player_untouched Qcsqrt above_ground).
  - split; [rewrite above_ground_N; unfold MAX_N_OBSTACLES; lia | reflexivity].
  - intros i. rewrite above_ground_N. intros Hi.
    assert (i = 0 \/ i = 1 \/ i = 2 \/ i = 3 \/ i = 4 \/ i = 5 \/ i = 6 \/
            i = 7 \/ i = 8 \/ i = 9 \/ i = 10 \/ i = 11 \/ i = 12 \/ i = 13)%Z
      as Hcases by lia.
    repeat (destruct Hcases as [-> | Hcases]); try subst i; vm_compute; reflexivity.
Defined.




(** There the ground does overlap the player, who is lifted by one unit. *)
Lemma sunk_in_ground_lifted :
  CheckCollisionRecs (get_player_rect sunk_in_ground)
                     (rect (obstacle_at sunk_in_ground 0)) = true /\
  collision_mtv sunk_in_ground = mkVector2 0 (fl (-1)).
Proof.
  split; [vm_compute; reflexivity |].
  unfold collision_mtv. 
  assert (forall v w : Vector2, vx v = vx w -> vy v = vy w -> v = w) as Hext
    by (intros [] [] ; cbn; congruence).
  apply Hext; apply Qc_is_canon; vm_compute; reflexivity.
Qed.

(** ** [update_player], the health and the camera *)

Section PlayerStep.

Variable sqrtf : Qc -> Qc.


End PlayerStep.




Section Health.

Variable sqrtf : Qc -> Qc.

Lemma update_health_le (f : Frame) (g : Game) :
  key_R f = false ->
  health (PLAYER (update sqrtf f g)) <= health (PLAYER g) /\
  max_health (PLAYER (update sqrtf f g)) = max_health (PLAYER g).
Proof.
  intros HR. unfold update, update_reset. rewrite HR.
  destruct (update_player_frame sqrtf f g) as (_ & _ & Hh2 & Hm2 & _).
  set (g2 := update_player sqrtf f g) in *.
  destruct (update_obstacles_frame sqrtf f g2) as [_ (_ & _ & _ & _ & Hh3 & Hm3 & _)].
  set (g3 := update_obstacles sqrtf f g2) in *.
  destruct (update_player_collisions_frame sqrtf g3) as (_ & _ & Hm4 & Hh4).
  cbn [PLAYER update_camera set_CAMERA].
  split; [| congruence].
  eapply Qcle_trans; [exact Hh4 |]. rewrite Hh3, Hh2. apply Qcle_refl.
Qed.

Lemma update_player_consts (f : Frame) (g : Game) :
  Player_consts (PLAYER g) -> Player_consts (PLAYER (update sqrtf f g)).
Proof.
  intros Hg. unfold update.
  assert (Player_consts (PLAYER (update_reset f g))) as H1.
  { unfold update_reset. destruct (key_R f); [| exact Hg].
    rewrite load_game_PLAYER. repeat split. }
  set (g1 := update_reset f g) in *. clearbody g1.
  assert (Player_consts (PLAYER (update_player sqrtf f g1))) as H2.
  { destruct H1 as (Hs & Hsp & Hj & Hm & Hv). unfold update_player, Player_consts.
    cbn [PLAYER set_PLAYER is_grounded set_velocity].
    destruct (key_W f && is_grounded (PLAYER g1));
      cbn [size speed jump_impulse max_health velocity set_position set_velocity
           set_vy vx]; auto. }
  set (g2 := update_player sqrtf f g1) in *. clearbody g2.
  assert (Player_consts (PLAYER (update_obstacles sqrtf f g2))) as H3.
  { destruct (update_obstacles_frame sqrtf f g2)
      as [_ (Hv & Hs & Hsp & Hj & _ & Hm & _)].
    destruct H2 as (? & ? & ? & ? & ?). unfold Player_consts.
    rewrite Hv, Hs, Hsp, Hj, Hm. auto. }
  set (g3 := update_obstacles sqrtf f g2) in *. clearbody g3.
  cbn [PLAYER update_camera set_CAMERA].
  rewrite update_player_collisions_player. cbv zeta.
  destruct H3 as (Hs & Hsp & Hj & Hm & Hv). unfold Player_consts.
  destruct (_ && _); [| destruct (_ && _)];
    cbn [size speed jump_impulse max_health velocity set_position set_velocity
         set_health set_is_grounded set_vy vx Vector2Zero]; auto.
Qed.

End Health.

(** X11.  Nothing but a reset gives health back: over any frames in which
    R is not pressed the player's health never rises and the maximal
    health stays what it is. *)
Theorem health_never_recovers (sqrtf : Qc -> Qc) (frames : list Frame) (g : Game) :
  Forall (fun f => key_R f = false) frames ->
  health (PLAYER (updates sqrtf frames g)) <= health (PLAYER g) /\
  max_health (PLAYER (updates sqrtf frames g)) = max_health (PLAYER g).
Proof.
  intros Hframes. unfold updates. revert g.
  induction Hframes as [| f frames Hf _ IH]; intros g.
  - split; [apply Qcle_refl | reflexivity].
  - cbn [fold_left].
    destruct (update_health_le sqrtf f g Hf) as [Hh Hm].
    destruct (IH (update sqrtf f g)) as [IHh IHm].
    split; [eapply Qcle_trans; eassumption | congruence].
Qed.

Lemma health_never_recovers_witness :
  let frames := map frame_of [(4, 1, false); (1, 0, true)]%Z in
  health (PLAYER (updates Qcsqrt frames landing_at_40))
    <= health (PLAYER landing_at_40) /\
  max_health (PLAYER (updates Qcsqrt frames landing_at_40))
    = max_health (PLAYER landing_at_40).
Proof.
  apply (health_never_recovers Qcsqrt
           (map frame_of [(4, 1, false); (1, 0, true)]%Z) landing_at_40).
  repeat constructor.
Defined.

(** X12.  In every reachable state the player has the size (1, 2), the
    speed 15, the jump impulse 30 and the maximal health 100 that
    [load_game] gave them, and no horizontal velocity: walking moves the
    position directly. *)
Theorem reachable_player_consts (sqrtf : Qc -> Qc) (g : Game) :
  reachable sqrtf g -> Player_consts (PLAYER g).
Proof.
  induction 1 as [rand0 Hrand | f g Hg IH Hf].
  - rewrite load_game_PLAYER. repeat split.
  - now apply update_player_consts.
Qed.

Lemma reachable_player_consts_witness :
  Player_consts (PLAYER (run Qcsqrt rand_right (map frame_of [(5, 2, false)%Z]))).
Proof.
  apply (reachable_player_consts Qcsqrt).
  apply run_reachable; [exact rand_right_ok | apply frames_of_ok; reflexivity].
Defined.


(** ** The level in every reachable state *)

Lemma level_spawn (n : Z) (r : Rectangle) (s e : Vector2) (sp : Qc) (g : Game) :
  (0 <= n < MAX_N_OBSTACLES)%Z ->
  N_OBSTACLES g = n ->
  length (OBSTACLES g) = Z.to_nat MAX_N_OBSTACLES ->
  (forall j : nat, (j < Z.to_nat n)%nat -> level_slot j (OBSTACLES g !!! j)) ->
  (forall a b, level_slot (Z.to_nat n) (mkObstacle r s e sp a b)) ->
  let g' := snd (spawn_obstacle r s e sp g) in
  N_OBSTACLES g' = (n + 1)%Z /\
  length (OBSTACLES g') = Z.to_nat MAX_N_OBSTACLES /\
  forall j : nat, (j < Z.to_nat (n + 1))%nat -> level_slot j (OBSTACLES g' !!! j).
Proof.
  intros Hn HN HL Hold Hnew. cbv zeta.
  rewrite spawn_obstacle_room by (rewrite HN; lia).
  cbn [N_OBSTACLES OBSTACLES]. rewrite length_insert, HN.
  split; [reflexivity |]. split; [exact HL |].
  intros j Hj. rewrite list_lookup_total_insert, HL.
  unfold MAX_N_OBSTACLES in *.
  case_decide as Hd.
  - destruct Hd as [<- _]. apply Hnew.
  - apply Hold. lia.
Qed.

Lemma load_game_Level (rand : nat -> Z) (g : Game) :
  rand_ok rand ->
  length (OBSTACLES g) = Z.to_nat MAX_N_OBSTACLES ->
  Level (load_game rand g).
Proof.
  intros Hrand HL. unfold Level, load_game.
  pose (P := fun (i : Z) (s : Game) =>
    N_OBSTACLES s = (4 + i)%Z /\
    length (OBSTACLES s) = Z.to_nat MAX_N_OBSTACLES /\
    forall j : nat, (j < Z.to_nat (4 + i))%nat -> level_slot j (OBSTACLES s !!! j)).
  match goal with
  | |- context [for_loop 10 ?body ?s] =>
      assert (P 10%Z (for_loop 10 body s)) as H
  end; [| exact H].
  apply for_loop_ind; [lia | |].
  - unfold spawn_static_obstacle.
    apply (level_spawn 3); [unfold MAX_N_OBSTACLES; lia | | | | reflexivity];
      [apply (level_spawn 2); [unfold MAX_N_OBSTACLES; lia | | | | reflexivity] ..];
      [apply (level_spawn 1); [unfold MAX_N_OBSTACLES; lia | | | | reflexivity] ..];
      [apply (level_spawn 0); [unfold MAX_N_OBSTACLES; lia | | | | reflexivity] ..];
      try reflexivity; try exact HL; intros j Hj; cbn in Hj; lia.
  - intros i s Hi (HN & HLs & Hj). unfold P, load_game_platform.
    replace (4 + (i + 1))%Z with (4 + i + 1)%Z by lia.
    apply level_spawn; [unfold MAX_N_OBSTACLES; lia | exact HN | exact HLs | exact Hj |].
    intros a b. unfold level_slot.
    replace (Z.to_nat (4 + i) <? 4)%nat with false
      by (symmetry; apply Nat.ltb_ge; lia).
    replace (Z.of_nat (Z.to_nat (4 + i)) - 4)%Z with i by lia.
    cbv zeta. unfold drawn_in_range, platform_y.
    cbn [start end_ rect rx ry width height o_speed].
    destruct (randf_min_max_range (rand (2 * Z.to_nat i)%nat) (fl (-15)) (fl 5))
      as [? ?]; [apply Hrand | qc_lra |].
    destruct (randf_min_max_range (rand (2 * Z.to_nat i + 1)%nat) (fl 5) (fl 9))
      as [? ?]; [apply Hrand | qc_lra |].
    split_conj; auto.
Qed.

Section LevelKept.

Variable sqrtf : Qc -> Qc.

Lemma move_platform_level_slot (d : Qc) (k : nat) (o : Obstacle) :
  0 <= d -> level_slot k o -> 0 < o_speed o ->
  level_slot k (move_platform sqrtf d o).
Proof.
  intros Hd Hk Hsp. unfold level_slot in *.
  destruct (k <? 4)%nat.
  - unfold spawn_config in Hk. injection Hk as _ _ _ H0.
    rewrite H0 in Hsp. discriminate.
  - cbv zeta in *. destruct Hk as (Hs & He & Hy & Hw & Hh & Hx0 & Hx1 & Hs0 & Hs1).
    set (y := platform_y _) in *. clearbody y.
    assert (on_patrol o) as Hon.
    { exists ((rx (rect o) + fl 15) * fl (1 # 20)). unfold obstacle_position.
      rewrite Hs, He. cbn [vx vy].
      split_conj; [qc_to_q; lra | qc_to_q; lra | | rewrite Hy; ring].
      apply Qc_is_canon. autorewrite with qc_this. lra. }
    destruct (move_platform_on_patrol sqrtf d o Hd Hsp Hon)
      as (t & Ht0 & Ht1 & Htx & Hty).
    destruct (move_platform_fields sqrtf d o) as (Es & Ee & Esp & _ & Ew & Eh).
    unfold obstacle_position in Htx, Hty. cbn [vx vy] in Htx, Hty.
    rewrite Es, Ee, Hs, He in Htx, Hty. cbn [vx vy] in Htx, Hty.
    unfold drawn_in_range. rewrite Es, Ee, Esp, Ew, Eh.
    split_conj; auto.
    + rewrite Hty. ring.
    + rewrite Htx. qc_to_q. nra.
    + rewrite Htx. qc_to_q. nra.
Qed.

Lemma update_obstacles_Level (f : Frame) (g : Game) :
  0 <= dt f -> Level g -> Level (update_obstacles sqrtf f g).
Proof.
  intros Hdt (HN & HL & Hslots).
  destruct (update_obstacles_frame sqrtf f g) as [(HN' & HL' & _) _].
  split; [congruence |]. split; [congruence |].
  intros k Hk. apply (update_obstacles_slot sqrtf (level_slot k)).
  - intros o Ho Hsp. now apply move_platform_level_slot.
  - now apply Hslots.
Qed.

Lemma update_player_collisions_Level (g : Game) :
  Level g -> Level (update_player_collisions sqrtf g).
Proof.
  intros (HN & HL & Hslots).
  destruct (update_player_collisions_frame sqrtf g) as ((HN' & HL' & _) & HO & _).
  split; [congruence |]. split; [congruence |].
  intros k Hk. rewrite HO. apply (collisions_loop_slot (level_slot k)).
  - intros o b Ho. unfold level_slot in *.
    destruct (k <? 4)%nat; exact Ho.
  - now apply Hslots.
Qed.

Lemma update_player_Level (f : Frame) (g : Game) :
  Level g -> Level (update_player sqrtf f g).
Proof. intros Hg. exact Hg. Qed.

Lemma update_Level (f : Frame) (g : Game) :
  Frame_ok f -> Level g -> Level (update sqrtf f g).
Proof.
  intros [Hdt Hrand] Hg. unfold update.
  assert (Level (update_reset f g)) as H1.
  { unfold update_reset. destruct (key_R f); [| exact Hg].
    apply load_game_Level; [exact Hrand | apply Hg]. }
  apply update_player_collisions_Level, update_obstacles_Level, update_player_Level;
    assumption.
Qed.

End LevelKept.

(** X14.  The level never changes shape: in every reachable state there
    are 14 obstacles in the 64 slots; the ground, the two walls and the
    stair are where and as [load_game] spawned them, with speed 0; and
    platform [i] is at height [8 - 8 i], 10 wide and 2.5 high, patrols
    between x = -15 and x = 5 at that height, has its left edge between
    those bounds and a speed between 5 and 9. *)
Theorem level_geometry (sqrtf : Qc -> Qc) (g : Game) :
  reachable sqrtf g -> Level g.
Proof.
  induction 1 as [rand0 Hrand | f g Hg IH Hf].
  - apply load_game_Level; [exact Hrand | reflexivity].
  - now apply update_Level.
Qed.

Lemma level_geometry_witness :
  Level (run Qcsqrt rand_right (map frame_of [(5, 2, false); (1, 2, true)]%Z)).
Proof.
  apply (level_geometry Qcsqrt).
  apply run_reachable; [exact rand_right_ok | apply frames_of_ok; reflexivity].
Defined.

(** ** More on the patrol of a platform *)

Section PatrolMore.

Variable sqrtf : Qc -> Qc.




(** A patrol of a single point: the direction is the zero vector, and each
    tick puts the platform on that point and turns it around. *)
Lemma move_platform_pinned (d : Qc) (o : Obstacle) :
  start o = end_ o ->
  obstacle_position (move_platform sqrtf d o) = start o /\
  is_moving_to_start (move_platform sqrtf d o) = negb (is_moving_to_start o).
Proof.
  intros Hse. unfold move_platform, platform_step, platform_direction.
  rewrite <- Hse.
  assert (Vector2Subtract (start o) (start o) = Vector2Zero) as ->.
  { unfold Vector2Subtract, Vector2Zero. apply (f_equal2 mkVector2); ring. }
  rewrite Vector2Normalize_zero.
  assert (Vector2Negate Vector2Zero = Vector2Zero) as HN0.
  { unfold Vector2Negate, Vector2Zero. cbn [vx vy]. apply (f_equal2 mkVector2); ring. }
  rewrite HN0.
  assert (forall v, (0 <? Vector2DotProduct Vector2Zero v) = false) as Hdot.
  { intros v. apply Qcltb_false. unfold Vector2DotProduct, Vector2Zero.
    cbn [vx vy]. qc_lra. }
  destruct (is_moving_to_start o) eqn:Hm; cbn [is_moving_to_start set_rect];
    rewrite ?Hm, Hdot; cbn [negb]; unfold obstacle_position;
    cbn [rect set_rect set_is_moving_to_start set_rx set_ry rx ry
         is_moving_to_start xorb start end_];
    rewrite <- ?Hse; (split; [now destruct (start o) | reflexivity]).
Qed.

End PatrolMore.



(** X16.  A moving obstacle whose patrol is a single point ([start] and
    [end] equal) never divides by the zero length: every tick leaves it on
    that point and flips its direction flag. *)
Theorem platform_pinned (sqrtf : Qc -> Qc) (f : Frame) (g : Game) (i : Z) :
  Game_wf g -> (0 <= i < N_OBSTACLES g)%Z ->
  0 < o_speed (obstacle_at g i) ->
  start (obstacle_at g i) = end_ (obstacle_at g i) ->
  obstacle_position (obstacle_at (update_obstacles sqrtf f g) i)
    = start (obstacle_at g i) /\
  is_moving_to_start (obstacle_at (update_obstacles sqrtf f g) i)
    = negb (is_moving_to_start (obstacle_at g i)).
Proof.
  intros [[HN0 HN1] HL] Hi Hsp Hse. unfold obstacle_at in *.
  rewrite update_obstacles_at by (rewrite ?HL; unfold MAX_N_OBSTACLES in *; lia).
  apply Qcltb_true in Hsp. rewrite Hsp.
  now apply move_platform_pinned.
Qed.

Lemma platform_pinned_witness :
  obstacle_position
    (obstacle_at (update_obstacles Qcsqrt (no_input (fl 1)) pinned_game) 0)
    = start (obstacle_at pinned_game 0) /\
  is_moving_to_start
    (obstacle_at (update_obstacles Qcsqrt (no_input (fl 1)) pinned_game) 0)
    = negb (is_moving_to_start (obstacle_at pinned_game 0)).
Proof.
  apply (platform_pinned Qcsqrt (no_input (fl 1)) pinned_game 0).
  - vm_compute. split_conj; try discriminate; reflexivity.
  - vm_compute. split; [discriminate | reflexivity].
  - vm_compute. reflexivity.
  - reflexivity.
Defined.

(** ** Standing still *)

Section Standing.

Variable sqrtf : Qc -> Qc.






End Standing.








(** ** Jumping off the ground *)

Section Jump.

Variable sqrtf : Qc -> Qc.



End Jump.



(** ** Loading twice *)

Lemma Game_ext (g1 g2 : Game) :
  PLAYER g1 = PLAYER g2 -> CAMERA g1 = CAMERA g2 ->
  N_OBSTACLES g1 = N_OBSTACLES g2 -> OBSTACLES g1 = OBSTACLES g2 -> g1 = g2.
Proof. destruct g1, g2. cbn. congruence. Qed.

Lemma list_total_ext (l1 l2 : list Obstacle) :
  length l1 = length l2 -> (forall k, l1 !!! k = l2 !!! k) -> l1 = l2.
Proof.
  intros Hlen H. apply list_eq. intros i.
  destruct (decide (i < length l1)%nat) as [Hi | Hi].
  - destruct (lookup_lt_is_Some_2 l1 i Hi) as [x Hx].
    destruct (lookup_lt_is_Some_2 l2 i ltac:(lia)) as [y Hy].
    rewrite Hx, Hy. f_equal.
    rewrite <- (list_lookup_total_correct _ _ _ Hx),
            <- (list_lookup_total_correct _ _ _ Hy).
    apply H.
  - rewrite !(proj2 (lookup_ge_None _ _)) by lia. reflexivity.
Qed.

Lemma load_sim_spawn (n : Z) (r : Rectangle) (s e : Vector2) (sp : Qc) (g1 g2 : Game) :
  (0 <= n < 14)%Z -> load_sim n g1 g2 ->
  load_sim (n + 1) (snd (spawn_obstacle r s e sp g1)) (snd (spawn_obstacle r s e sp g2)).
Proof.
  intros Hn (HN1 & HN2 & HP & HC & HL1 & HL2 & Hk).
  rewrite !spawn_obstacle_room by (unfold MAX_N_OBSTACLES; lia).
  unfold load_sim. cbn [N_OBSTACLES OBSTACLES PLAYER CAMERA].
  rewrite !length_insert, HN1, HN2.
  split_conj; auto.
  intros k. rewrite !list_lookup_total_insert, HL1, HL2.
  change (Z.to_nat MAX_N_OBSTACLES) with 64%nat.
  destruct (Hk k) as [Heq [Hf1 Hf2]].
  destruct (Hk (Z.to_nat n)) as [_ [Hn1 Hn2]].
  case_decide as Hd.
  - rewrite Hn1, Hn2. split; [reflexivity | split; reflexivity].
  - split; [| split; assumption].
    intros Hcase. apply Heq. lia.
Qed.

Lemma load_game_sim (rand : nat -> Z) (g1 g2 : Game) :
  length (OBSTACLES g1) = Z.to_nat MAX_N_OBSTACLES ->
  length (OBSTACLES g2) = Z.to_nat MAX_N_OBSTACLES ->
  CAMERA g1 = CAMERA g2 ->
  is_grounded (PLAYER g1) = is_grounded (PLAYER g2) ->
  (forall k : nat, slot_sim 0 k (OBSTACLES g1 !!! k) (OBSTACLES g2 !!! k)) ->
  load_game rand g1 = load_game rand g2.
Proof.
  intros HL1 HL2 HC HG Hk.
  assert (load_sim 14 (load_game rand g1) (load_game rand g2))
    as (HN1 & HN2 & HP & HC' & HL1' & HL2' & Hk').
  { unfold load_game.
    apply (for_loop_rel (fun i a b => load_sim (4 + i) a b)); [lia | |].
    - unfold spawn_static_obstacle.
      apply (load_sim_spawn 3); [lia |].
      apply (load_sim_spawn 2); [lia |].
      apply (load_sim_spawn 1); [lia |].
      apply (load_sim_spawn 0); [lia |].
      unfold load_sim. cbn [N_OBSTACLES OBSTACLES PLAYER CAMERA set_N_OBSTACLES set_PLAYER].
      split_conj; auto.
      unfold set_health, set_max_health, set_jump_impulse, set_speed, set_size,
        set_velocity, set_position.
      cbn [position velocity size speed jump_impulse health max_health is_grounded].
      now rewrite HG.
    - intros i a b Hi Hab. unfold load_game_platform.
      replace (4 + (i + 1))%Z with (4 + i + 1)%Z by lia.
      apply load_sim_spawn; [lia | exact Hab]. }
  apply Game_ext; [exact HP | exact HC' | congruence |].
  apply list_total_ext; [congruence |].
  intros k. apply (Hk' k).
  change (Z.to_nat 14) with 14%nat. lia.
Qed.

(** What a load leaves of the state it starts from. *)
Lemma load_game_kept (rand : nat -> Z) (g : Game) (k : nat) :
  length (OBSTACLES g) = Z.to_nat MAX_N_OBSTACLES ->
  length (OBSTACLES (load_game rand g)) = Z.to_nat MAX_N_OBSTACLES /\
  same_flags (OBSTACLES (load_game rand g) !!! k) (OBSTACLES g !!! k) /\
  ((14 <= k)%nat -> OBSTACLES (load_game rand g) !!! k = OBSTACLES g !!! k).
Proof.
  intros HL.
  pose (P := fun (n : Z) (s : Game) =>
    N_OBSTACLES s = n /\
    length (OBSTACLES s) = Z.to_nat MAX_N_OBSTACLES /\
    same_flags (OBSTACLES s !!! k) (OBSTACLES g !!! k) /\
    ((14 <= k)%nat -> OBSTACLES s !!! k = OBSTACLES g !!! k)).
  assert (forall n r s e sp a, (0 <= n < 14)%Z -> P n a ->
            P (n + 1)%Z (snd (spawn_obstacle r s e sp a))) as Hspawn.
  { intros n r s e sp a Hn (HN & HLa & Hf & Hb).
    rewrite spawn_obstacle_room by (unfold MAX_N_OBSTACLES; lia).
    unfold P. cbn [N_OBSTACLES OBSTACLES]. rewrite length_insert, HN.
    split; [reflexivity |]. split; [exact HLa |].
    rewrite list_lookup_total_insert, HLa.
    case_decide as Hd.
    - destruct Hd as [<- _]. split; [exact Hf | intros; lia].
    - split; assumption. }
  assert (P 14%Z (load_game rand g)) as (_ & H); [| exact H].
  unfold load_game.
  apply (for_loop_ind (fun i s => P (4 + i)%Z s)); [lia | |].
  - unfold spawn_static_obstacle.
    apply (Hspawn 3%Z); [lia |]. apply (Hspawn 2%Z); [lia |].
    apply (Hspawn 1%Z); [lia |]. apply (Hspawn 0%Z); [lia |].
    unfold P, same_flags. cbn [N_OBSTACLES OBSTACLES set_N_OBSTACLES set_PLAYER].
    split_conj; auto.
  - intros i a Hi Ha. unfold load_game_platform.
    replace (4 + (i + 1))%Z with (4 + i + 1)%Z by lia.
    apply Hspawn; [lia | exact Ha].
Qed.

(** X19.  Loading twice is loading once: a [load_game] that follows
    another one yields the very state it would have yielded without it,
    whatever the first one drew -- nothing a load writes survives the
    next load. *)
Theorem load_game_twice (rand rand' : nat -> Z) (g : Game) :
  length (OBSTACLES g) = Z.to_nat MAX_N_OBSTACLES ->
  load_game rand (load_game rand' g) = load_game rand g.
Proof.
  intros HL.
  apply load_game_sim.
  - apply (load_game_kept rand' g 0 HL).
  - exact HL.
  - unfold load_game. 
    apply (for_loop_inv (fun s => CAMERA s = CAMERA g)).
    + intros i s _ Hs. unfold load_game_platform.
      now rewrite (proj1 (proj2 (spawn_obstacle_frame _ _ _ _ _))).
    + unfold spawn_static_obstacle.
      now rewrite !(proj1 (proj2 (spawn_obstacle_frame _ _ _ _ _))).
  - now rewrite load_game_PLAYER.
  - intros k. destruct (load_game_kept rand' g k HL) as (_ & Hf & Hb).
    split; [| exact Hf].
    intros [Hlt | Hge]; [cbn in Hlt; lia | now apply Hb].
Qed.

Lemma load_game_twice_witness :
  load_game rand_right (load_game rand_left landed_on_platform)
  = load_game rand_right landed_on_platform.
Proof.
  apply (load_game_twice rand_right rand_left landed_on_platform).
  vm_compute. reflexivity.
Defined.
